(** * AdvancedContentAnalyzer (src/app.py): response parsing, contact
      extraction and the row loop

    The development embeds the analytical part of [src/app.py]:
    [extract_contact_info], [analyze_content], [_parse_detailed_response],
    [_create_empty_result] and the row loop of [process_file].

    Modelling decisions.
    - A Python [str] is a [list ascii]; every [ascii] is read as one code
      point in the range 0..255.  The character tables below ([isspace],
      [isdecimal], [isword], [tolower]) are Python's tables restricted to
      that range.
    - The regular expressions of the source are values of [Re.regex];
      [Re.search] and [Re.findall] follow the documented behaviour of
      Python's [re.search] and [re.findall]: leftmost match, alternatives
      and quantifiers tried in priority order, backtracking on failure.
    - A Python [dict] with string keys is a [gmap string _]; a Python [set]
      is a [gset]; a failing subscript or attribute access is a [Raise].
    - A blank spreadsheet cell reaches the code as the float [nan]; cells
      that hold text reach it as strings.  Other cell types are not
      modelled.
    - The generative model is an oracle that may depend on every prompt it
      received earlier; the list of prompts sent so far is threaded through
      the code as explicit state.  Logging is not modelled. *)

From Stdlib Require Import Ascii String List Arith Bool Lia.
From stdpp Require Import base option list gmap strings.

Set Default Proof Using "Type".
Local Open Scope nat_scope.

(** ** Text *)

Abbreviation text := (list ascii).

Definition txt (s : string) : text := list_ascii_of_string s.

Definition code (c : ascii) : nat := nat_of_ascii c.

Definition between (lo hi : nat) (c : ascii) : bool :=
  (lo <=? code c) && (code c <=? hi).

Definition newline : ascii := ascii_of_nat 10.

(** [str.isspace] on one character, also the class [\s]. *)
Definition isspace (c : ascii) : bool :=
  between 9 13 c || between 28 32 c || (code c =? 133) || (code c =? 160).

(** The class [\d]: decimal digits. *)
Definition isdecimal (c : ascii) : bool := between 48 57 c.

(** [str.isalnum] on one character. *)
Definition isalnum (c : ascii) : bool :=
  between 48 57 c || between 65 90 c || between 97 122 c
  || (code c =? 170) || between 178 179 c || (code c =? 181)
  || between 185 186 c || between 188 190 c
  || between 192 214 c || between 216 246 c || between 248 255 c.

(** The class [\w], which decides where [\b] holds. *)
Definition isword (c : ascii) : bool := isalnum c || (code c =? 95).

(** Simple lower-case mapping, used by [re.IGNORECASE]. *)
Definition tolower (c : ascii) : ascii :=
  if between 65 90 c || (between 192 222 c && negb (code c =? 215))
  then ascii_of_nat (code c + 32) else c.

(** Simple upper-case mapping, where the result stays below 256. *)
Definition toupper (c : ascii) : ascii :=
  if between 97 122 c || (between 224 254 c && negb (code c =? 247))
  then ascii_of_nat (code c - 32) else c.

Definition eq_char (c d : ascii) : bool := bool_decide (c = d).

Definition eq_nocase (c d : ascii) : bool := eq_char (tolower c) (tolower d).

(** ** String methods *)

Fixpoint lstrip_with (p : ascii -> bool) (s : text) : text :=
  match s with
  | c :: s' => if p c then lstrip_with p s' else s
  | [] => []
  end.

Definition rstrip_with (p : ascii -> bool) (s : text) : text :=
  reverse (lstrip_with p (reverse s)).

Definition strip_with (p : ascii -> bool) (s : text) : text :=
  rstrip_with p (lstrip_with p s).

(** [s.strip()] *)
Definition strip (s : text) : text := strip_with isspace s.

Definition one_of (chars : text) (c : ascii) : bool :=
  existsb (eq_char c) chars.

(** [s.strip(chars)] *)
Definition strip_chars (chars : text) (s : text) : text :=
  strip_with (one_of chars) s.

(** [s.replace(old, new)] for a one-character [old]. *)
Fixpoint replace (old : ascii) (new : text) (s : text) : text :=
  match s with
  | c :: s' => (if eq_char c old then new else [c]) ++ replace old new s'
  | [] => []
  end.

(** [sep.join(l)] *)
Fixpoint join (sep : text) (l : list text) : text :=
  match l with
  | [] => []
  | [x] => x
  | x :: l' => x ++ sep ++ join sep l'
  end.

(** ** Regular expressions *)

Module Re.

Inductive item : Type :=
| Chr (c : ascii)
| Range (lo hi : ascii)
| Digits
| Spaces.

Inductive atom : Type :=
| Lit (c : ascii)
| Dot
| Set_ (items : list item).

Inductive regex : Type :=
| Empty
| Atom (a : atom)
| Repeat (a : atom) (lo : nat) (hi : option nat) (greedy : bool)
| Seq (r1 r2 : regex)
| Alt (r1 r2 : regex)
| WordBoundary
| EndOfString
| Lookahead (r : regex)
| Group (r : regex).

Record flags : Type := { IGNORECASE : bool; DOTALL : bool }.

Definition no_flags : flags := {| IGNORECASE := false; DOTALL := false |}.

Definition item_ok (i : item) (c : ascii) : bool :=
  match i with
  | Chr d => eq_char c d
  | Range lo hi => between (code lo) (code hi) c
  | Digits => isdecimal c
  | Spaces => isspace c
  end.

Definition atom_ok (fl : flags) (a : atom) (c : ascii) : bool :=
  match a with
  | Lit d => if IGNORECASE fl then eq_nocase c d else eq_char c d
  | Dot => DOTALL fl || negb (eq_char c newline)
  | Set_ items =>
      existsb (fun i => item_ok i c) items
      || (IGNORECASE fl
          && (existsb (fun i => item_ok i (tolower c)) items
              || existsb (fun i => item_ok i (toupper c)) items))
  end.

(** The position of the matcher: the character just passed (for [\b]), the
    text still ahead, and the text of group 1 when it has taken part. *)
Record pos : Type := { before : option ascii; ahead : text; group1 : option text }.

Definition word_char (o : option ascii) : bool :=
  match o with Some c => isword c | None => false end.

Section Repeat.
Context {R : Type} (ok : ascii -> bool) (greedy : bool).

(** [a{lo,hi}] and [a{lo,hi}?] for a one-character [a]; [k] is what
    remains of the pattern. *)
Fixpoint repeat_atom (lo : nat) (hi : option nat)
    (prev : option ascii) (s : text)
    (k : option ascii -> text -> option R) {struct s} : option R :=
  match lo with
  | S lo' =>
      match s with
      | c :: s' =>
          if ok c then repeat_atom lo' (pred <$> hi) (Some c) s' k else None
      | [] => None
      end
  | 0 =>
      match hi with
      | Some 0 => k prev s
      | _ =>
          if greedy then
            match
              match s with
              | c :: s' =>
                  if ok c then repeat_atom 0 (pred <$> hi) (Some c) s' k
                  else None
              | [] => None
              end
            with
            | Some r => Some r
            | None => k prev s
            end
          else
            match k prev s with
            | Some r => Some r
            | None =>
                match s with
                | c :: s' =>
                    if ok c then repeat_atom 0 (pred <$> hi) (Some c) s' k
                    else None
                | [] => None
                end
            end
      end
  end.
End Repeat.

Definition at_end (s : text) : bool :=
  match s with
  | [] => true
  | [c] => eq_char c newline
  | _ => false
  end.

Fixpoint run (fl : flags) (r : regex) (p : pos)
    (k : pos -> option pos) {struct r} : option pos :=
  match r with
  | Empty => k p
  | Atom a =>
      match ahead p with
      | c :: s' =>
          if atom_ok fl a c
          then k {| before := Some c; ahead := s'; group1 := group1 p |}
          else None
      | [] => None
      end
  | Repeat a lo hi greedy =>
      repeat_atom (atom_ok fl a) greedy lo hi (before p) (ahead p)
        (fun b s => k {| before := b; ahead := s; group1 := group1 p |})
  | Seq r1 r2 => run fl r1 p (fun p' => run fl r2 p' k)
  | Alt r1 r2 =>
      match run fl r1 p k with
      | Some q => Some q
      | None => run fl r2 p k
      end
  | WordBoundary =>
      if xorb (word_char (before p)) (word_char (head (ahead p)))
      then k p else None
  | EndOfString => if at_end (ahead p) then k p else None
  | Lookahead r1 =>
      match run fl r1 p Some with
      | Some q =>
          k {| before := before p; ahead := ahead p; group1 := group1 q |}
      | None => None
      end
  | Group r1 =>
      run fl r1 p (fun q =>
        k {| before := before q; ahead := ahead q;
             group1 := Some (take (length (ahead p) - length (ahead q))
                                  (ahead p)) |})
  end.

(** A match anchored at the current position. *)
Definition match_here (fl : flags) (r : regex) (b : option ascii) (s : text)
    : option pos :=
  run fl r {| before := b; ahead := s; group1 := None |} Some.

(** [re.search]: the leftmost position at which the pattern matches. *)
Fixpoint search_from (fl : flags) (r : regex) (b : option ascii) (s : text)
    : option pos :=
  match match_here fl r b s with
  | Some q => Some q
  | None =>
      match s with
      | c :: s' => search_from fl r (Some c) s'
      | [] => None
      end
  end.

Definition search (fl : flags) (r : regex) (s : text) : option pos :=
  search_from fl r None s.

(** [re.findall] for a pattern without groups: the texts of the
    non-overlapping matches, left to right.  [skip] counts the characters of
    the last match that are still to be passed. *)
Fixpoint findall_from (fl : flags) (r : regex) (skip : nat)
    (b : option ascii) (s : text) : list text :=
  match skip with
  | S n =>
      match s with
      | c :: s' => findall_from fl r n (Some c) s'
      | [] => []
      end
  | 0 =>
      match match_here fl r b s with
      | Some q =>
          let n := length s - length (ahead q) in
          take n s ::
            match s with
            | c :: s' => findall_from fl r (pred n) (Some c) s'
            | [] => []
            end
      | None =>
          match s with
          | c :: s' => findall_from fl r 0 (Some c) s'
          | [] => []
          end
      end
  end.

Definition findall (fl : flags) (r : regex) (s : text) : list text :=
  findall_from fl r 0 None s.

(** Pattern syntax helpers. *)
Definition seq (rs : list regex) : regex := foldr Seq Empty rs.

Fixpoint alt (rs : list regex) : regex :=
  match rs with
  | [] => Empty
  | [r] => r
  | r :: rs' => Alt r (alt rs')
  end.

Definition lits (s : text) : regex := seq (map (fun c => Atom (Lit c)) s).

Definition opt (r : regex) : regex := Alt r Empty.

End Re.

(** ** Exceptions *)

Inductive exn : Type :=
| KeyError (key : string)
| AttributeError
| ModelError.

Inductive may_raise (A : Type) : Type :=
| Ok (a : A)
| Raise (e : exn).
Arguments Ok {A} a.
Arguments Raise {A} e.

#[global] Instance may_raise_ret : MRet may_raise := fun _ a => Ok a.

(** Sequencing: the first exception raised ends the computation. *)
#[global] Instance may_raise_bind : MBind may_raise := fun _ _ f x =>
  match x with
  | Ok a => f a
  | Raise e => Raise e
  end.

(** [d[key]] *)
Definition subscript {V : Type} (d : gmap string V) (key : string)
    : may_raise V :=
  match d !! key with
  | Some v => Ok v
  | None => Raise (KeyError key)
  end.

(** ** The analyzer *)

Import Re.

Definition digit : atom := Set_ [Digits].

(** [[-.\s]] *)
Definition separator : atom := Set_ [Chr "-"; Chr "."; Spaces].

Definition exactly (n : nat) (a : atom) : regex := Repeat a n (Some n) true.

(** [\b(?:\+\d{1,3}[-.\s]?)?(?:\(\d{3}\)|\d{3})[-.\s]?\d{3}[-.\s]?\d{4}\b] *)
Definition phone_pattern : regex :=
  seq [ WordBoundary;
        opt (seq [ Atom (Lit "+"); Repeat digit 1 (Some 3) true;
                   Repeat separator 0 (Some 1) true ]);
        Alt (seq [ Atom (Lit "("); exactly 3 digit; Atom (Lit ")") ])
            (exactly 3 digit);
        Repeat separator 0 (Some 1) true;
        exactly 3 digit;
        Repeat separator 0 (Some 1) true;
        exactly 4 digit;
        WordBoundary ].

(** [[A-Za-z0-9._%+-]] *)
Definition local_part : atom :=
  Set_ [ Range "A" "Z"; Range "a" "z"; Range "0" "9";
         Chr "."; Chr "_"; Chr "%"; Chr "+"; Chr "-" ].

(** [[A-Za-z0-9.-]] *)
Definition domain_part : atom :=
  Set_ [ Range "A" "Z"; Range "a" "z"; Range "0" "9"; Chr "."; Chr "-" ].

(** [[A-Z|a-z]] *)
Definition tld_part : atom := Set_ [ Range "A" "Z"; Chr "|"; Range "a" "z" ].

(** [\b[A-Za-z0-9._%+-]+@[A-Za-z0-9.-]+\.[A-Z|a-z]{2,}\b] *)
Definition email_pattern : regex :=
  seq [ WordBoundary;
        Repeat local_part 1 None true;
        Atom (Lit "@");
        Repeat domain_part 1 None true;
        Atom (Lit ".");
        Repeat tld_part 2 None true;
        WordBoundary ].

(** [list(set(l))]: the members of [l], each once.  Python leaves the order
    of a set unspecified; [elements] fixes one order, and nothing below
    depends on which. *)
Definition list_set (l : list text) : list text :=
  elements (list_to_set l : gset text).

Definition extract_contact_info (content : text) : gmap string (list text) :=
  let phones := findall no_flags phone_pattern content in
  let emails := findall no_flags email_pattern content in
  <["emails" := list_set emails]> (<["phones" := list_set phones]> ∅).

Definition _create_empty_result : gmap string text :=
  <["emails" := []]> (<["phones" := []]> (<["additional_services" := []]>
    (<["secondary_services" := []]> (<["primary_services" := []]> ∅)))).

Definition service_sections : list (string * text) :=
  [ ("primary_services"%string, txt "Primary Services:");
    ("secondary_services"%string, txt "Secondary Services:");
    ("additional_services"%string, txt "Additional Services:") ].

(** [Primary Services:|Secondary Services:|Additional Services:|$] *)
Definition section_ends : regex :=
  alt [ lits (txt "Primary Services:");
        lits (txt "Secondary Services:");
        lits (txt "Additional Services:");
        EndOfString ].

(** [{section_header}(.*?)(?=Primary Services:|Secondary Services:|Additional Services:|$)] *)
Definition section_pattern (section_header : text) : regex :=
  seq [ lits section_header;
        Group (Repeat Dot 0 None false);
        Lookahead section_ends ].

Definition section_flags : flags := {| IGNORECASE := true; DOTALL := true |}.

(** [section_match.group(1)]; on a group that took no part Python gives
    [None], whose [.strip] raises. *)
Definition group (q : pos) : may_raise text :=
  match group1 q with
  | Some g => Ok g
  | None => Raise AttributeError
  end.

(** [.strip().strip('[]').replace('\n', ', ')] *)
Definition tidy (body : text) : text :=
  replace newline (txt ", ") (strip_chars (txt "[]") (strip body)).

Fixpoint parse_sections (sections : list (string * text)) (response : text)
    (result : gmap string text) : may_raise (gmap string text) :=
  match sections with
  | [] => Ok result
  | (key, section_header) :: sections' =>
      match search section_flags (section_pattern section_header) response with
      | Some section_match =>
          body ← group section_match;
          parse_sections sections' response (<[key := tidy body]> result)
      | None => parse_sections sections' response result
      end
  end.

Definition _parse_detailed_response (response original_content : text)
    : may_raise (gmap string text) :=
  result ← parse_sections service_sections response _create_empty_result;
  let contact_info := extract_contact_info original_content in
  phones ← subscript contact_info "phones";
  let result := <["phones" := join (txt ", ") phones]> result in
  emails ← subscript contact_info "emails";
  let result := <["emails" := join (txt ", ") emails]> result in
  Ok result.


(** The f-string of [analyze_content]. *)
Definition prompt_for (content : text) : text :=
  let nl := [newline] in
  nl
  ++ txt "        Thoroughly analyze this car service center description and extract detailed information:" ++ nl
  ++ nl
  ++ txt "        Description: " ++ content ++ nl
  ++ nl
  ++ txt "        Categorize services into:" ++ nl
  ++ txt "        1. Primary Services: Core, main services the center specializes in" ++ nl
  ++ txt "        2. Secondary Services: Additional, supporting services" ++ nl
  ++ txt "        3. Additional Services: Supplementary or optional services" ++ nl
  ++ nl
  ++ txt "        Provide the output in this structured format:" ++ nl
  ++ txt "        Primary Services: [List primary services]" ++ nl
  ++ txt "        Secondary Services: [List secondary services]" ++ nl
  ++ txt "        Additional Services: [List additional services]" ++ nl
  ++ txt "        ".

(** A spreadsheet cell as [pandas] hands it over: a string, or the float
    [nan] of a blank cell. *)
Inductive value : Type :=
| VStr (s : text)
| VNaN.

(** [str(v)] *)
Definition str (v : value) : text :=
  match v with
  | VStr s => s
  | VNaN => txt "nan"
  end.

(** [row.get(column, '')] *)
Definition get (row : gmap string value) (column : string) : value :=
  default (VStr []) (row !! column).

Definition kept_columns : list string :=
  [ "Name"; "Address"; "Rating_text"; "Opening_Time"; "Phone_Number";
    "GMAP"; "Website" ]%string.

Section Analyzer.

(** [self.model.generate_content(prompt)] followed by [response.text]:
    given the prompts sent before, the answer to this prompt, or the
    exception raised. *)
Variable generate_content : list text -> text -> may_raise text.

(** The state threaded through the analyzer: the prompts sent so far. *)
Definition analyze_content (sent : list text) (content : text)
    : gmap string text * list text :=
  let prompt := prompt_for content in
  match
    response ← generate_content sent prompt;
    _parse_detailed_response response content
  with
  | Ok result => (result, sent ++ [prompt])
  | Raise _ => (_create_empty_result, sent ++ [prompt])
  end.

(** The dict literal [processed_row]. *)
Definition processed_row (row : gmap string value)
    (analysis : gmap string text) : may_raise (gmap string value) :=
  primary ← subscript analysis "primary_services";
  secondary ← subscript analysis "secondary_services";
  additional ← subscript analysis "additional_services";
  phones ← subscript analysis "phones";
  emails ← subscript analysis "emails";
  Ok (<["Extracted_Emails" := VStr emails]> (
      <["Extracted_Phones" := VStr phones]> (
      <["Additional_Services" := VStr additional]> (
      <["Secondary_Services" := VStr secondary]> (
      <["Primary_Services" := VStr primary]> (
      <["Website" := get row "Website"]> (
      <["GMAP" := get row "GMAP"]> (
      <["Phone_Number" := get row "Phone_Number"]> (
      <["Opening_Time" := get row "Opening_Time"]> (
      <["Rating_text" := get row "Rating_text"]> (
      <["Address" := get row "Address"]> (
      <["Name" := get row "Name"]> ∅)))))))))))).

(** One turn of the [for idx, row in df.iterrows()] loop, up to the
    [append]. *)
Definition process_row (sent : list text) (row : gmap string value)
    : may_raise (gmap string value) * list text :=
  let all_content := str (get row "All_Content") in
  let '(analysis, sent') :=
    match strip all_content with
    | _ :: _ => analyze_content sent all_content
    | [] => (_create_empty_result, sent)
    end in
  (processed_row row analysis, sent').

Fixpoint rows_loop (rows : list (gmap string value))
    (analyzed_data : list (gmap string value)) (sent : list text)
    : may_raise (list (gmap string value)) * list text :=
  match rows with
  | [] => (Ok analyzed_data, sent)
  | row :: rows' =>
      match process_row sent row with
      | (Ok out, sent') => rows_loop rows' (analyzed_data ++ [out]) sent'
      | (Raise e, sent') => (Raise e, sent')
      end
  end.

(** [process_file] once the sheet has been read into [df]: the rows of
    the resulting frame, and the prompts sent on the way. *)
Definition process_file (df : list (gmap string value)) (sent : list text)
    : may_raise (list (gmap string value)) * list text :=
  rows_loop df [] sent.

End Analyzer.

(** The keys of an analysis result. *)
Definition analysis_keys : gset string :=
  {[ "primary_services"; "secondary_services"; "additional_services";
     "phones"; "emails" ]}%string.

(** ** The section grammar, in words

    The definitions of this part do not come from the source: they say
    where a marker occurs and where a section body ends, and the matcher is
    compared with them below. *)

(** [s] begins with [h], letter case aside. *)
Fixpoint starts_nocase (h s : text) : bool :=
  match h, s with
  | [], _ => true
  | c :: h', d :: s' => eq_nocase d c && starts_nocase h' s'
  | _ :: _, [] => false
  end.

(** Index of the first occurrence of [h] in [s], letter case aside. *)
Fixpoint find_nocase (h s : text) : option nat :=
  if starts_nocase h s then Some 0
  else match s with
       | [] => None
       | _ :: s' => S <$> find_nocase h s'
       end.

(** One of the three markers begins here. *)
Definition marker_here (s : text) : bool :=
  starts_nocase (txt "Primary Services:") s
  || starts_nocase (txt "Secondary Services:") s
  || starts_nocase (txt "Additional Services:") s.

(** Where the lookahead of [section_pattern] is satisfied. *)
Definition section_end (s : text) : bool := marker_here s || at_end s.

(** Number of characters of [s] before the first place where [stop] holds
    (the whole of [s] when it holds nowhere). *)
Fixpoint span_until (stop : text -> bool) (s : text) : nat :=
  if stop s then 0
  else match s with
       | [] => 0
       | _ :: s' => S (span_until stop s')
       end.

(** The character just before position [n] of [s], or [b] at position 0. *)
Definition passed (b : option ascii) (s : text) (n : nat) : option ascii :=
  match last (take n s) with
  | Some c => Some c
  | None => b
  end.

(** The value [_parse_detailed_response] leaves under a section key. *)
Definition section_field (section_header response : text) : text :=
  match find_nocase section_header response with
  | Some i =>
      let rest := drop (i + length section_header) response in
      tidy (take (span_until section_end rest) rest)
  | None => []
  end.

(** The end of a section body as the specification words it: the next
    marker, or the end of the text. *)
Definition stated_end (s : text) : bool :=
  marker_here s || match s with [] => true | _ :: _ => false end.

(** [core] is [s] without the run of [p]-characters at its start and the
    run of [p]-characters at its end. *)
Definition stripped_of (p : ascii -> bool) (s core : text) : Prop :=
  exists l r,
    s = l ++ core ++ r
    /\ Forall (fun c => p c = true) l
    /\ Forall (fun c => p c = true) r
    /\ (forall c, head core = Some c -> p c = false)
    /\ (forall c, last core = Some c -> p c = false).

Definition is_bracket (c : ascii) : bool := one_of (txt "[]") c.

(** Bracket removal as the specification words it: one leading ["["] and
    one trailing ["]"], when present. *)
Definition strip_one_pair (s : text) : text :=
  let s1 := match s with
            | c :: s' => if eq_char c "[" then s' else s
            | [] => []
            end in
  match last s1 with
  | Some c => if eq_char c "]" then removelast s1 else s1
  | None => s1
  end.

(** The prompts that processing [rows] sends to the model, in order. *)
Definition prompts_of (rows : list (gmap string value)) : list text :=
  flat_map (fun row =>
    let all_content := str (get row "All_Content") in
    match strip all_content with
    | _ :: _ => [prompt_for all_content]
    | [] => []
    end) rows.

(** The columns that [process_file] adds: three for the services, two for
    the contacts. *)
Definition service_columns : list string :=
  [ "Primary_Services"; "Secondary_Services"; "Additional_Services" ]%string.

Definition analysis_columns : list string :=
  service_columns ++ [ "Extracted_Phones"; "Extracted_Emails" ]%string.

(** ** What a pattern can consume

    A static reading of a pattern: bounds on how many characters of a given
    kind a match can hold.  Used below to describe the contacts that
    [extract_contact_info] returns. *)

(** Every character, once. *)
Definition all_chars : list ascii := map ascii_of_nat (List.seq 0 256).

(** Every character the atom accepts is of kind [P]. *)
Definition always (fl : flags) (a : atom) (P : ascii -> bool) : bool :=
  forallb (fun c => implb (atom_ok fl a c) (P c)) all_chars.

(** No character the atom accepts is of kind [P]. *)
Definition never (fl : flags) (a : atom) (P : ascii -> bool) : bool :=
  forallb (fun c => implb (atom_ok fl a c) (negb (P c))) all_chars.

(** Number of characters of kind [P] in [m]. *)
Fixpoint count_of (P : ascii -> bool) (m : text) : nat :=
  match m with
  | [] => 0
  | c :: m' => (if P c then 1 else 0) + count_of P m'
  end.

Definition add_bound (h1 h2 : option nat) : option nat :=
  match h1, h2 with
  | Some a, Some b => Some (a + b)
  | _, _ => None
  end.

Definition max_bound (h1 h2 : option nat) : option nat :=
  match h1, h2 with
  | Some a, Some b => Some (a `max` b)
  | _, _ => None
  end.

(** Least and greatest number of [P]-characters in a text the pattern
    consumes ([None]: no greatest number). *)
Fixpoint count_bounds (fl : flags) (P : ascii -> bool) (r : regex)
    : nat * option nat :=
  match r with
  | Empty | WordBoundary | EndOfString | Lookahead _ => (0, Some 0)
  | Atom a =>
      (if always fl a P then 1 else 0, Some (if never fl a P then 0 else 1))
  | Repeat a lo hi _ =>
      (if always fl a P then lo else 0,
       if never fl a P then Some 0 else Nat.max lo <$> hi)
  | Seq r1 r2 =>
      let '(l1, h1) := count_bounds fl P r1 in
      let '(l2, h2) := count_bounds fl P r2 in
      (l1 + l2, add_bound h1 h2)
  | Alt r1 r2 =>
      let '(l1, h1) := count_bounds fl P r1 in
      let '(l2, h2) := count_bounds fl P r2 in
      (l1 `min` l2, max_bound h1 h2)
  | Group r1 => count_bounds fl P r1
  end.

Definition within (bounds : nat * option nat) (n : nat) : Prop :=
  bounds.1 <= n /\ forall h, bounds.2 = Some h -> n <= h.

(** The character just passed once [m] has been consumed after [b]. *)
Definition after (b : option ascii) (m : text) : option ascii :=
  match last m with
  | Some c => Some c
  | None => b
  end.

(** The pattern ends with [\b]. *)
Fixpoint ends_at_boundary (r : regex) : bool :=
  match r with
  | WordBoundary => true
  | Seq r1 Empty => ends_at_boundary r1
  | Seq _ r2 => ends_at_boundary r2
  | _ => false
  end.

(** The pattern begins with [\b]. *)
Definition starts_at_boundary (r : regex) : bool :=
  match r with
  | Seq WordBoundary _ => true
  | _ => false
  end.

(** The characters a phone match is made of. *)
Definition phone_char (c : ascii) : bool :=
  isdecimal c || isspace c || one_of (txt "+()-.") c.

(** The characters an email match is made of. *)
Definition email_char (c : ascii) : bool :=
  between 65 90 c || between 97 122 c || isdecimal c
  || one_of (txt "._%+-@|") c.

(** The twelve columns of an output row. *)
Definition output_columns : gset string :=
  list_to_set (kept_columns ++ analysis_columns).

(** ** Facts about the matcher *)

Lemma passed_0 b s : passed b s 0 = b.
Proof. unfold passed. by rewrite take_0. Qed.

Lemma passed_cons b c s n : passed b (c :: s) (S n) = passed (Some c) s n.
Proof.
  unfold passed. rewrite firstn_cons, last_cons.
  by destruct (last (take n s)).
Qed.

Lemma passed_add b s n m :
  passed (passed b s n) (drop n s) m = passed b s (n + m).
Proof.
  unfold passed. rewrite <- take_take_drop, last_app.
  by destruct (last (take m (drop n s))).
Qed.

Lemma repeat_lazy_step {R : Type} (ok : ascii -> bool) b s
    (k : option ascii -> text -> option R) :
  repeat_atom ok false 0 None b s k =
  match k b s with
  | Some r => Some r
  | None =>
      match s with
      | c :: s' => if ok c then repeat_atom ok false 0 None (Some c) s' k else None
      | [] => None
      end
  end.
Proof. by destruct s. Qed.

Lemma repeat_atom_ext {R : Type} (ok : ascii -> bool) g s lo hi b
    (k k' : option ascii -> text -> option R) :
  (forall b' s', k b' s' = k' b' s') ->
  repeat_atom ok g lo hi b s k = repeat_atom ok g lo hi b s k'.
Proof.
  intros Hk. revert lo hi b.
  induction s as [|c s IH]; intros lo hi b;
    destruct lo, hi as [[|n]|], g; simpl; rewrite ?Hk; try done;
    destruct (ok c); simpl; rewrite ?Hk; try done;
    by rewrite (IH _ _ _).
Qed.

(** A lazy [.*?] under [DOTALL] hands over at the first place where the rest
    of the pattern succeeds. *)
Lemma repeat_lazy_until {R : Type} (ok : ascii -> bool) (stop : text -> bool)
    (f : option ascii -> text -> R) s b :
  (forall c, ok c = true) ->
  stop [] = true ->
  repeat_atom ok false 0 None b s
    (fun b' s' => if stop s' then Some (f b' s') else None) =
  Some (f (passed b s (span_until stop s)) (drop (span_until stop s) s)).
Proof.
  intros Hok Hend. revert b.
  induction s as [|c s IH]; intros b; rewrite repeat_lazy_step.
  - simpl. rewrite Hend. by rewrite passed_0.
  - simpl. destruct (stop (c :: s)) eqn:Hs.
    + by rewrite passed_0.
    + rewrite Hok, IH. by rewrite passed_cons.
Qed.

Lemma run_lits h p k :
  run section_flags (lits h) p k =
  if starts_nocase h (ahead p)
  then k {| before := passed (before p) (ahead p) (length h);
            ahead := drop (length h) (ahead p);
            group1 := group1 p |}
  else None.
Proof.
  revert p. induction h as [|c h IH]; intros [b s g]; simpl.
  - by rewrite passed_0.
  - destruct s as [|d s]; [done|].
    destruct (eq_nocase d c); [|done].
    unfold lits in IH. rewrite IH. simpl.
    by rewrite passed_cons.
Qed.

Lemma run_section_ends p k :
  run section_flags (Lookahead section_ends) p k =
  if section_end (ahead p) then k p else None.
Proof.
  destruct p as [b s g]. unfold section_ends, section_end, marker_here.
  cbn [alt run]. rewrite !run_lits. cbn [ahead before group1].
  destruct (starts_nocase (txt "Primary Services:") s); [done|].
  destruct (starts_nocase (txt "Secondary Services:") s); [done|].
  destruct (starts_nocase (txt "Additional Services:") s); [done|].
  simpl. by destruct (at_end s).
Qed.

Lemma span_until_le stop s : span_until stop s <= length s.
Proof.
  induction s as [|c s IH]; simpl; [by destruct (stop [])|].
  destruct (stop (c :: s)); simpl; lia.
Qed.

Lemma match_section h b s :
  match_here section_flags (section_pattern h) b s =
  if starts_nocase h s then
    let rest := drop (length h) s in
    let n := span_until section_end rest in
    Some {| before := passed (passed b s (length h)) rest n;
            ahead := drop n rest;
            group1 := Some (take n rest) |}
  else None.
Proof.
  unfold match_here, section_pattern.
  change (run section_flags (seq ?rs) ?p Some) with
    (run section_flags (lits h) p (fun p' =>
       repeat_atom (atom_ok section_flags Dot) false 0 None
         (before p') (ahead p')
         (fun b' s' =>
            run section_flags (Lookahead section_ends)
              {| before := b'; ahead := s';
                 group1 := Some (take (length (ahead p') - length s')
                                      (ahead p')) |} Some))).
  rewrite run_lits. cbn [ahead before group1].
  destruct (starts_nocase h s); [|done].
  set (rest := drop (length h) s).
  erewrite repeat_atom_ext; last first.
  { intros b' s'. rewrite run_section_ends. cbn [ahead]. reflexivity. }
  rewrite (repeat_lazy_until _ section_end
    (fun b' s' => {| before := b'; ahead := s';
                     group1 := Some (take (length rest - length s') rest) |}));
    [|done|done].
  cbn zeta. do 3 f_equal.
  pose proof (span_until_le section_end rest). rewrite length_drop.
  f_equal. lia.
Qed.

Lemma find_nocase_spec h s :
  match find_nocase h s with
  | Some i =>
      i <= length s /\ starts_nocase h (drop i s) = true
      /\ forall j, j < i -> starts_nocase h (drop j s) = false
  | None => forall j, starts_nocase h (drop j s) = false
  end.
Proof.
  induction s as [|c s IH]; cbn [find_nocase].
  - destruct (starts_nocase h []) eqn:E.
    + split; [done|]. split; [done|]. intros j Hj. lia.
    + intros j. by rewrite drop_nil.
  - destruct (starts_nocase h (c :: s)) eqn:E.
    + split; [simpl; lia|]. split; [done|]. intros j Hj. lia.
    + destruct (find_nocase h s) as [i|]; cbn [fmap option_fmap option_map].
      * destruct IH as (Hle & Hi & Hlt).
        split; [simpl; lia|]. split; [done|].
        intros [|j] Hj; [done|]. apply Hlt. lia.
      * intros [|j]; [done|]. apply IH.
Qed.

Lemma search_from_section h s b :
  search_from section_flags (section_pattern h) b s =
  match find_nocase h s with
  | Some i =>
      let rest := drop (i + length h) s in
      let n := span_until section_end rest in
      Some {| before := passed b s (i + length h + n);
              ahead := drop n rest;
              group1 := Some (take n rest) |}
  | None => None
  end.
Proof.
  revert b. induction s as [|c s IH]; intros b;
    cbn [search_from find_nocase]; rewrite match_section.
  - destruct (starts_nocase h []) eqn:E; [|done].
    cbn zeta. by rewrite passed_add.
  - destruct (starts_nocase h (c :: s)) eqn:E.
    + cbn zeta. by rewrite passed_add.
    + rewrite IH. destruct (find_nocase h s) as [i|]; [|done].
      cbn [fmap option_fmap option_map]. cbn zeta.
      do 2 f_equal.
      change (S i + length h + ?n) with (S (i + length h + n)).
      by rewrite passed_cons.
Qed.

(** What [re.search] finds for a section pattern: nothing when the header
    is absent, and otherwise group 1 over the stretch that follows its first
    occurrence. *)
Lemma search_section h s :
  match search section_flags (section_pattern h) s with
  | Some q =>
      exists i, find_nocase h s = Some i
        /\ group1 q = Some (take (span_until section_end (drop (i + length h) s))
                                (drop (i + length h) s))
  | None => find_nocase h s = None
  end.
Proof.
  unfold search. rewrite search_from_section.
  destruct (find_nocase h s) as [i|]; [|done]. by exists i.
Qed.

Lemma parse_sections_cons key h sections response d :
  parse_sections ((key, h) :: sections) response d =
  parse_sections sections response
    (match find_nocase h response with
     | Some _ => <[key := section_field h response]> d
     | None => d
     end).
Proof.
  cbn [parse_sections]. unfold section_field.
  pose proof (search_section h response) as Hs.
  destruct (search section_flags (section_pattern h) response) as [q|].
  - destruct Hs as (i & -> & Hg). unfold group. by rewrite Hg.
  - by rewrite Hs.
Qed.

Lemma subscript_phones content :
  subscript (extract_contact_info content) "phones" =
  Ok (list_set (findall no_flags phone_pattern content)).
Proof. unfold subscript, extract_contact_info. by simplify_map_eq. Qed.

Lemma subscript_emails content :
  subscript (extract_contact_info content) "emails" =
  Ok (list_set (findall no_flags email_pattern content)).
Proof. unfold subscript, extract_contact_info. by simplify_map_eq. Qed.

(** The parser always returns, and each key of the result holds what the
    section grammar and the contact patterns say. *)
Lemma parse_detailed_response_fields response original_content :
  exists d,
    _parse_detailed_response response original_content = Ok d
    /\ dom d = analysis_keys
    /\ d !! "primary_services"
       = Some (section_field (txt "Primary Services:") response)
    /\ d !! "secondary_services"
       = Some (section_field (txt "Secondary Services:") response)
    /\ d !! "additional_services"
       = Some (section_field (txt "Additional Services:") response)
    /\ d !! "phones"
       = Some (join (txt ", ")
                (list_set (findall no_flags phone_pattern original_content)))
    /\ d !! "emails"
       = Some (join (txt ", ")
                (list_set (findall no_flags email_pattern original_content))).
Proof.
  unfold _parse_detailed_response, service_sections.
  rewrite !parse_sections_cons. cbn [parse_sections mbind may_raise_bind].
  rewrite subscript_phones, subscript_emails.
  eexists. split; [reflexivity|].
  unfold section_field, _create_empty_result, analysis_keys.
  destruct (find_nocase (txt "Primary Services:") response);
    destruct (find_nocase (txt "Secondary Services:") response);
    destruct (find_nocase (txt "Additional Services:") response);
    (split; [rewrite !dom_insert_L, dom_empty_L; set_solver|]);
    by simplify_map_eq.
Qed.

(** ** Contact extraction *)

Lemma list_set_NoDup l : NoDup (list_set l).
Proof. unfold list_set. apply NoDup_elements. Qed.

Lemma elem_of_list_set l x : x ∈ list_set l <-> x ∈ l.
Proof. unfold list_set. rewrite elem_of_elements. set_solver. Qed.

(** C8: for every input text the phones and the emails returned by
    [extract_contact_info] hold no entry twice; entries are the matched
    strings themselves, compared character by character (so two matches that
    differ in letter case are two entries), and every match is kept. *)
Theorem extract_contact_info_no_duplicates (content : text) :
  exists phones emails,
    extract_contact_info content !! "phones" = Some phones
    /\ extract_contact_info content !! "emails" = Some emails
    /\ NoDup phones /\ NoDup emails
    /\ (forall x, x ∈ phones <-> x ∈ findall no_flags phone_pattern content)
    /\ (forall x, x ∈ emails <-> x ∈ findall no_flags email_pattern content).
Proof.
  exists (list_set (findall no_flags phone_pattern content)),
         (list_set (findall no_flags email_pattern content)).
  unfold extract_contact_info.
  split; [by simplify_map_eq|]. split; [by simplify_map_eq|].
  split; [apply list_set_NoDup|]. split; [apply list_set_NoDup|].
  split; intros x; apply elem_of_list_set.
Qed.

(** C9: on the empty string [extract_contact_info] returns an empty list of
    phones and an empty list of emails; no exception is involved. *)
Theorem extract_contact_info_empty :
  extract_contact_info [] !! "phones" = Some []
  /\ extract_contact_info [] !! "emails" = Some [].
Proof. split; vm_compute; reflexivity. Qed.

(** C10: the last character class of the email pattern admits ["|"], and
    on the text [a@b.c|d] the extractor returns the email [a@b.c|d], whose
    last domain label [c|d] holds a ["|"]. *)
Theorem email_final_label_admits_bar :
  atom_ok no_flags tld_part "|" = true
  /\ extract_contact_info (txt "a@b.c|d") !! "emails"
     = Some [txt "a@b" ++ "."%char :: txt "c|d"]
  /\ "|"%char ∈ txt "c|d"
  /\ "."%char ∉ txt "c|d".
Proof.
  split; [reflexivity|]. split; [vm_compute; reflexivity|].
  split; [|intros H]; [set_solver|].
  repeat (apply elem_of_cons in H as [H|H]; [discriminate H|]).
  by apply elem_of_nil in H.
Qed.

(** ** The parser *)

(** C3: for every response text and raw text the parser returns a dict and
    raises nothing; the dict has exactly the five keys
    [primary_services], [secondary_services], [additional_services],
    [phones], [emails], each bound to a string; the result it starts from,
    [_create_empty_result], has the same five keys, each bound to the empty
    string. *)
Theorem parse_result_has_five_fields (response original_content : text) :
  exists d,
    _parse_detailed_response response original_content = Ok d
    /\ dom d = analysis_keys
    /\ (forall key, key ∈ analysis_keys -> exists v : text, d !! key = Some v)
    /\ dom _create_empty_result = analysis_keys
    /\ map_Forall (fun _ v => v = []) _create_empty_result.
Proof.
  destruct (parse_detailed_response_fields response original_content)
    as (d & Hd & Hdom & _).
  exists d. split; [done|]. split; [done|]. split.
  - intros key Hkey. rewrite <- Hdom in Hkey.
    apply elem_of_dom in Hkey as [v Hv]. by exists v.
  - split.
    + unfold _create_empty_result, analysis_keys.
      rewrite !dom_insert_L, dom_empty_L. set_solver.
    + unfold _create_empty_result. intros key v Hv.
      repeat (apply lookup_insert_Some in Hv as [[_ Hv]|[_ Hv]]; [done|]).
      by rewrite lookup_empty in Hv.
Qed.

Lemma span_until_spec stop s :
  stop [] = true ->
  stop (drop (span_until stop s) s) = true
  /\ forall j, j < span_until stop s -> stop (drop j s) = false.
Proof.
  intros Hend. induction s as [|c s [IH1 IH2]]; cbn [span_until].
  - rewrite Hend. split; [done|]. intros j Hj. lia.
  - destruct (stop (c :: s)) eqn:E.
    + split; [done|]. intros j Hj. lia.
    + split; [done|]. intros [|j] Hj; [done|]. apply IH2. lia.
Qed.

Lemma at_end_spec s : at_end s = true <-> s = [] \/ s = [newline].
Proof.
  destruct s as [|c [|d s]]; simpl; unfold eq_char.
  - split; [by left|done].
  - rewrite bool_decide_eq_true. split.
    + intros ->. by right.
    + intros [?|[= ->]]; done.
  - split; [done|]. intros [?|?]; done.
Qed.

Lemma section_end_false s :
  section_end s = false -> marker_here s = false /\ s <> [newline].
Proof.
  unfold section_end. intros [Hm He]%orb_false_iff. split; [done|].
  intros ->. by vm_compute in He.
Qed.

Lemma lstrip_with_spec p s :
  exists l,
    s = l ++ lstrip_with p s
    /\ Forall (fun c => p c = true) l
    /\ forall c, head (lstrip_with p s) = Some c -> p c = false.
Proof.
  induction s as [|c s (l & Hs & Hl & Hh)]; simpl.
  - exists []. by repeat split.
  - destruct (p c) eqn:E.
    + exists (c :: l). split; [by rewrite Hs at 1|]. split; [by constructor|done].
    + exists []. split; [done|]. split; [done|]. simpl. by intros ? [= <-].
Qed.

Lemma strip_with_spec p s : stripped_of p s (strip_with p s).
Proof.
  unfold strip_with, rstrip_with.
  destruct (lstrip_with_spec p s) as (l & Hs & Hl & Hh).
  set (u := lstrip_with p s) in *.
  destruct (lstrip_with_spec p (reverse u)) as (r & Hu & Hr & Hlast).
  set (x := lstrip_with p (reverse u)) in *.
  assert (u = reverse x ++ reverse r) as Hu'.
  { rewrite <- reverse_app, <- Hu. by rewrite reverse_involutive. }
  exists l, (reverse r). split; [by rewrite <- Hu'|].
  split; [done|]. split; [by apply Forall_reverse|]. split.
  - intros c Hc. apply Hh. rewrite Hu'.
    destruct (reverse x); [done|]. done.
  - intros c Hc. apply Hlast. by rewrite <- last_reverse.
Qed.

(** ** Section bodies *)

Lemma capture_of_section h response :
  match search section_flags (section_pattern h) response with
  | None => forall i, starts_nocase h (drop i response) = false
  | Some section_match =>
      exists i body rest,
        group1 section_match = Some body
        /\ starts_nocase h (drop i response) = true
        /\ (forall j, j < i -> starts_nocase h (drop j response) = false)
        /\ drop (i + length h) response = body ++ rest
        /\ (marker_here rest = true \/ rest = [] \/ rest = [newline])
        /\ (forall j, j < length body ->
              marker_here (drop j (body ++ rest)) = false
              /\ drop j (body ++ rest) <> [newline])
  end.
Proof.
  pose proof (search_section h response) as Hs.
  pose proof (find_nocase_spec h response) as Hf.
  destruct (search section_flags (section_pattern h) response) as [q|].
  - destruct Hs as (i & Hi & Hg). rewrite Hi in Hf.
    destruct Hf as (_ & Hstart & Hfirst).
    set (tail := drop (i + length h) response) in *.
    destruct (span_until_spec section_end tail eq_refl) as [Hstop Hbefore].
    exists i, (take (span_until section_end tail) tail),
           (drop (span_until section_end tail) tail).
    split; [done|]. split; [done|]. split; [done|].
    rewrite take_drop. split; [done|]. split.
    + unfold section_end in Hstop. apply orb_true_iff in Hstop as [?|He];
        [by left|]. right. by apply at_end_spec.
    + intros j Hj. apply section_end_false, Hbefore.
      rewrite length_take in Hj. lia.
  - by rewrite Hs in Hf.
Qed.

(** C2 (amended): for every response text and each of the three markers,
    [re.search] fails exactly when the marker occurs nowhere (letter case
    aside); otherwise group 1 is the text that starts right after the first
    occurrence of the marker and runs up to, and not including, the first
    place where one of the three markers begins, or where the text ends, or
    where nothing but one final line break remains.  Line breaks inside the
    body do not stop it, and the order of the markers in the text plays no
    part. *)
Theorem section_capture (response : text) :
  Forall (fun '(_, h) =>
    match search section_flags (section_pattern h) response with
    | None => forall i, starts_nocase h (drop i response) = false
    | Some section_match =>
        exists i body rest,
          group1 section_match = Some body
          /\ starts_nocase h (drop i response) = true
          /\ (forall j, j < i -> starts_nocase h (drop j response) = false)
          /\ drop (i + length h) response = body ++ rest
          /\ (marker_here rest = true \/ rest = [] \/ rest = [newline])
          /\ (forall j, j < length body ->
                marker_here (drop j (body ++ rest)) = false
                /\ drop j (body ++ rest) <> [newline])
    end) service_sections.
Proof.
  unfold service_sections.
  repeat (apply Forall_cons; split; [apply capture_of_section|]).
  apply Forall_nil_2.
Qed.

(** C2, as stated, fails on a response that ends in a line break: for
    [Primary Services: a] followed by a line break, the text between the
    marker and the end of the text is [ a] with the line break, and group 1
    is [ a] without it. *)
Lemma capture_stops_before_final_newline :
  let response := txt "Primary Services: a" ++ [newline] in
  let h := txt "Primary Services:" in
  let rest := drop (length h) response in
  find_nocase h response = Some 0
  /\ take (span_until stated_end rest) rest = txt " a" ++ [newline]
  /\ (search section_flags (section_pattern h) response ≫= group1)
     = Some (txt " a")
  /\ (search section_flags (section_pattern h) response ≫= group1)
     <> Some (take (span_until stated_end rest) rest).
Proof.
  cbn zeta. split; [reflexivity|]. split; [reflexivity|].
  split; [reflexivity|]. vm_compute. discriminate.
Qed.

Lemma service_section_cases key h :
  (key, h) ∈ service_sections ->
  (key = "primary_services"%string /\ h = txt "Primary Services:")
  \/ (key = "secondary_services"%string /\ h = txt "Secondary Services:")
  \/ (key = "additional_services"%string /\ h = txt "Additional Services:").
Proof.
  unfold service_sections. intros H.
  apply elem_of_cons in H as [[= -> ->]|H]; [by left|].
  apply elem_of_cons in H as [[= -> ->]|H]; [by right; left|].
  apply elem_of_cons in H as [[= -> ->]|H]; [by right; right|].
  by apply elem_of_nil in H.
Qed.

(** Under each section key the parser leaves [section_field]. *)
Lemma parse_detailed_response_sections response original_content :
  exists d,
    _parse_detailed_response response original_content = Ok d
    /\ forall key h, (key, h) ∈ service_sections ->
         d !! key = Some (section_field h response).
Proof.
  destruct (parse_detailed_response_fields response original_content)
    as (d & Hd & _ & Hp & Hs & Ha & _).
  exists d. split; [done|]. intros key h Hin.
  destruct (service_section_cases key h Hin) as [[-> ->]|[[-> ->]|[-> ->]]];
    done.
Qed.

(** C5 (amended): for every response and every marker found in it, the
    field is obtained from the captured body by taking off the white space
    at both ends, then every ["["] and ["]"] at both ends (as many as there
    are, of either kind), then writing [", "] for each line break; and the
    response [Primary Services: [Oil change, Tire rotation]] gives the
    field [Oil change, Tire rotation]. *)
Theorem section_body_tidied (response original_content : text) :
  (exists d,
     _parse_detailed_response response original_content = Ok d
     /\ Forall (fun '(key, h) =>
          forall i, find_nocase h response = Some i ->
            let rest := drop (i + length h) response in
            let body := take (span_until section_end rest) rest in
            exists trimmed core,
              stripped_of isspace body trimmed
              /\ stripped_of is_bracket trimmed core
              /\ d !! key = Some (replace newline (txt ", ") core))
        service_sections)
  /\ (_parse_detailed_response
        (txt "Primary Services: [Oil change, Tire rotation]") []
      ≫= fun d => subscript d "primary_services")
     = Ok (txt "Oil change, Tire rotation").
Proof.
  split; [|vm_compute; reflexivity].
  destruct (parse_detailed_response_sections response original_content)
    as (d & Hd & Hfield).
  exists d. split; [done|].
  apply Forall_forall. intros [key h] Hin i Hi. cbn zeta.
  set (body := take _ _).
  exists (strip body), (strip_chars (txt "[]") (strip body)).
  split; [apply strip_with_spec|]. split; [apply strip_with_spec|].
  rewrite (Hfield key h Hin). unfold section_field. by rewrite Hi.
Qed.

(** C5, as stated, fails on nested brackets: from the response
    [Primary Services: [[a]]] the parser keeps [a], where taking off one
    bracket at each end would keep [[a]]. *)
Lemma nested_brackets_all_removed :
  let response := txt "Primary Services: [[a]]" in
  let field :=
    _parse_detailed_response response [] ≫= fun d =>
      subscript d "primary_services" in
  (search section_flags (section_pattern (txt "Primary Services:")) response
     ≫= group1) = Some (txt " [[a]]")
  /\ replace newline (txt ", ") (strip_one_pair (strip (txt " [[a]]")))
     = txt "[a]"
  /\ field = Ok (txt "a")
  /\ field
     <> Ok (replace newline (txt ", ") (strip_one_pair (strip (txt " [[a]]")))).
Proof.
  cbn zeta. split; [reflexivity|]. split; [reflexivity|].
  split; [vm_compute; reflexivity|]. vm_compute. discriminate.
Qed.

(** C6: when one of the three markers occurs nowhere in the response
    (letter case aside), the parser still returns a result; the field of
    that marker is the empty string, and the field of every marker that
    does occur is parsed as for any response: from the text captured after
    its first occurrence, the white space at both ends is taken off, then
    the square brackets at both ends, and each line break left is written
    [", "]. *)
Theorem absent_marker_keeps_default
    (response original_content : text) (key : string) (h : text) :
  (key, h) ∈ service_sections ->
  find_nocase h response = None ->
  exists d,
    _parse_detailed_response response original_content = Ok d
    /\ d !! key = Some []
    /\ Forall (fun '(key', h') =>
         forall i, find_nocase h' response = Some i ->
           let rest := drop (i + length h') response in
           let body := take (span_until section_end rest) rest in
           exists trimmed core,
             stripped_of isspace body trimmed
             /\ stripped_of is_bracket trimmed core
             /\ d !! key' = Some (replace newline (txt ", ") core))
       service_sections.
Proof.
  intros Hin Hnone.
  destruct (parse_detailed_response_sections response original_content)
    as (d & Hd & Hfield).
  exists d. split; [done|]. split.
  - rewrite (Hfield key h Hin). unfold section_field. by rewrite Hnone.
  - apply Forall_forall. intros [key' h'] Hin' i Hi. cbn zeta.
    set (body := take _ _).
    exists (strip body), (strip_chars (txt "[]") (strip body)).
    split; [apply strip_with_spec|]. split; [apply strip_with_spec|].
    rewrite (Hfield key' h' Hin'). unfold section_field. by rewrite Hi.
Qed.

Lemma absent_marker_keeps_default_witness :
  let response :=
    txt "Primary Services: brakes" ++ newline
      :: txt "additional services: [wash]" in
  exists d,
    _parse_detailed_response response (txt "call 555-123-4567") = Ok d
    /\ d !! "secondary_services" = Some []
    /\ Forall (fun '(key', h') =>
         forall i, find_nocase h' response = Some i ->
           let rest := drop (i + length h') response in
           let body := take (span_until section_end rest) rest in
           exists trimmed core,
             stripped_of isspace body trimmed
             /\ stripped_of is_bracket trimmed core
             /\ d !! key' = Some (replace newline (txt ", ") core))
       service_sections.
Proof.
  intros response.
  apply (absent_marker_keeps_default response (txt "call 555-123-4567")
           "secondary_services" (txt "Secondary Services:")).
  - unfold service_sections. apply elem_of_cons. right.
    apply elem_of_cons. by left.
  - vm_compute. reflexivity.
Defined.

(** ** The row loop *)

Lemma create_empty_result_dom : dom _create_empty_result = analysis_keys.
Proof.
  unfold _create_empty_result, analysis_keys.
  rewrite !dom_insert_L, dom_empty_L. set_solver.
Qed.

Lemma analyze_content_spec gc sent content :
  dom (analyze_content gc sent content).1 = analysis_keys
  /\ (analyze_content gc sent content).2 = sent ++ [prompt_for content]
  /\ (forall e, gc sent (prompt_for content) = Raise e ->
        (analyze_content gc sent content).1 = _create_empty_result).
Proof.
  unfold analyze_content.
  destruct (gc sent (prompt_for content)) as [response|e];
    cbn [mbind may_raise_bind].
  - destruct (parse_detailed_response_fields response content)
      as (d & -> & Hdom & _).
    by repeat split.
  - split; [apply create_empty_result_dom|]. by split.
Qed.

Lemma processed_row_spec row analysis :
  dom analysis = analysis_keys ->
  exists out,
    processed_row row analysis = Ok out
    /\ Forall (fun c => out !! c = Some (get row c)) kept_columns
    /\ out !! "Primary_Services" = VStr <$> analysis !! "primary_services"
    /\ out !! "Secondary_Services" = VStr <$> analysis !! "secondary_services"
    /\ out !! "Additional_Services" = VStr <$> analysis !! "additional_services"
    /\ out !! "Extracted_Phones" = VStr <$> analysis !! "phones"
    /\ out !! "Extracted_Emails" = VStr <$> analysis !! "emails".
Proof.
  intros Hdom.
  assert (forall key, key ∈ analysis_keys -> is_Some (analysis !! key)) as Hkeys.
  { intros key Hkey. apply elem_of_dom. by rewrite Hdom. }
  destruct (Hkeys "primary_services") as [v1 H1]; [set_solver|].
  destruct (Hkeys "secondary_services") as [v2 H2]; [set_solver|].
  destruct (Hkeys "additional_services") as [v3 H3]; [set_solver|].
  destruct (Hkeys "phones") as [v4 H4]; [set_solver|].
  destruct (Hkeys "emails") as [v5 H5]; [set_solver|].
  unfold processed_row, subscript. rewrite H1, H2, H3, H4, H5.
  cbn [mbind may_raise_bind]. eexists. split; [reflexivity|].
  split; [|by simplify_map_eq].
  unfold kept_columns. repeat (apply Forall_cons; split; [by simplify_map_eq|]).
  apply Forall_nil_2.
Qed.

Lemma prompts_of_cons row rows :
  prompts_of (row :: rows) = prompts_of [row] ++ prompts_of rows.
Proof. unfold prompts_of. simpl. by rewrite app_nil_r. Qed.

Lemma process_row_spec gc sent row :
  let content := str (get row "All_Content") in
  let analysis :=
    match strip content with
    | _ :: _ => (analyze_content gc sent content).1
    | [] => _create_empty_result
    end in
  exists out,
    process_row gc sent row = (Ok out, sent ++ prompts_of [row])
    /\ Forall (fun c => out !! c = Some (get row c)) kept_columns
    /\ out !! "Primary_Services" = VStr <$> analysis !! "primary_services"
    /\ out !! "Secondary_Services" = VStr <$> analysis !! "secondary_services"
    /\ out !! "Additional_Services" = VStr <$> analysis !! "additional_services"
    /\ out !! "Extracted_Phones" = VStr <$> analysis !! "phones"
    /\ out !! "Extracted_Emails" = VStr <$> analysis !! "emails".
Proof.
  cbn zeta. unfold process_row, prompts_of. simpl.
  destruct (strip (str (get row "All_Content"))) as [|c s].
  - destruct (processed_row_spec row _ create_empty_result_dom)
      as (out & -> & Hcols).
    exists out. by rewrite !app_nil_r.
  - destruct (analyze_content_spec gc sent (str (get row "All_Content")))
      as (Hdom & Hsent & _).
    destruct (analyze_content gc sent (str (get row "All_Content")))
      as [analysis sent']. simpl in *. subst sent'.
    destruct (processed_row_spec row analysis Hdom) as (out & -> & Hcols).
    by exists out.
Qed.

Lemma rows_loop_spec gc rows : forall analyzed_data sent,
  exists outs,
    rows_loop gc rows analyzed_data sent
      = (Ok (analyzed_data ++ outs), sent ++ prompts_of rows)
    /\ length outs = length rows
    /\ forall i row, rows !! i = Some row ->
         exists out,
           outs !! i = Some out
           /\ (process_row gc (sent ++ prompts_of (take i rows)) row).1 = Ok out.
Proof.
  induction rows as [|row rows IH]; intros acc sent.
  - exists []. simpl. rewrite !app_nil_r. by repeat split.
  - destruct (process_row_spec gc sent row) as (out & Hrow & _).
    destruct (IH (acc ++ [out]) (sent ++ prompts_of [row]))
      as (outs & Hloop & Hlen & Hnth).
    exists (out :: outs). cbn [rows_loop]. rewrite Hrow, Hloop.
    rewrite (prompts_of_cons row rows), <- !app_assoc. split; [done|].
    split; [simpl; by rewrite Hlen|].
    intros [|i] r Hr; simpl in Hr.
    + injection Hr as <-. exists out. simpl. rewrite app_nil_r.
      by rewrite Hrow.
    + destruct (Hnth i r Hr) as (o & Ho & Hp). exists o. split; [done|].
      cbn [take]. by rewrite (prompts_of_cons row (take i rows)), app_assoc.
Qed.

(** C7: for every row whose [All_Content], turned into a string and
    trimmed, is empty, the loop sends no prompt to the model (the list of
    prompts sent is unchanged) and the five analysis columns of the output
    row hold the empty string. *)
Theorem blank_content_skips_model
    (generate_content : list text -> text -> may_raise text)
    (sent : list text) (row : gmap string value) :
  strip (str (get row "All_Content")) = [] ->
  exists out,
    process_row generate_content sent row = (Ok out, sent)
    /\ Forall (fun c => out !! c = Some (VStr [])) analysis_columns.
Proof.
  intros Hblank.
  destruct (process_row_spec generate_content sent row)
    as (out & Hrow & _ & H1 & H2 & H3 & H4 & H5).
  cbn zeta in *. rewrite Hblank in *.
  exists out. split.
  - rewrite Hrow. unfold prompts_of. simpl. rewrite Hblank.
    by rewrite !app_nil_r.
  - unfold analysis_columns, service_columns. simpl.
    repeat (apply Forall_cons; split; [done|]). apply Forall_nil_2.
Qed.

Lemma blank_content_skips_model_witness :
  exists out,
    process_row (fun _ _ => Ok (txt "Primary Services: towing"))
      [] {[ "All_Content"%string := VStr (txt "   ") ]} = (Ok out, [])
    /\ Forall (fun c => out !! c = Some (VStr [])) analysis_columns.
Proof.
  apply (blank_content_skips_model
           (fun _ _ => Ok (txt "Primary Services: towing"))
           [] {[ "All_Content"%string := VStr (txt "   ") ]}).
  vm_compute. reflexivity.
Defined.

(** C1 (amended): for every row whose [All_Content] is not empty after
    trimming, if the model call raises, the output row is still produced and
    all five analysis columns hold the empty string: the three service
    columns, and also [Extracted_Phones] and [Extracted_Emails], because no
    contact extraction is run for that row. *)
Theorem failed_call_gives_empty_analysis
    (generate_content : list text -> text -> may_raise text)
    (sent : list text) (row : gmap string value) (e : exn) :
  strip (str (get row "All_Content")) <> [] ->
  generate_content sent (prompt_for (str (get row "All_Content"))) = Raise e ->
  exists out,
    process_row generate_content sent row
      = (Ok out, sent ++ [prompt_for (str (get row "All_Content"))])
    /\ Forall (fun c => out !! c = Some (VStr [])) analysis_columns.
Proof.
  intros Hcontent Hraise.
  destruct (process_row_spec generate_content sent row)
    as (out & Hrow & _ & H1 & H2 & H3 & H4 & H5).
  destruct (analyze_content_spec generate_content sent
              (str (get row "All_Content"))) as (_ & _ & Hempty).
  cbn zeta in *. unfold prompts_of in Hrow. simpl in Hrow.
  destruct (strip (str (get row "All_Content"))) as [|c s]; [done|].
  rewrite (Hempty e Hraise) in *. rewrite app_nil_r in Hrow.
  exists out. split; [done|].
  unfold analysis_columns, service_columns. simpl.
  repeat (apply Forall_cons; split; [done|]). apply Forall_nil_2.
Qed.

Lemma failed_call_gives_empty_analysis_witness :
  exists out,
    process_row (fun _ _ => Raise ModelError) []
      {[ "All_Content"%string :=
           VStr (txt "Call us at 555-123-4567 or email info@example.com for brake repair.") ]}
    = (Ok out,
       [] ++ [prompt_for (str (get
          {[ "All_Content"%string :=
               VStr (txt "Call us at 555-123-4567 or email info@example.com for brake repair.") ]}
          "All_Content"))])
    /\ Forall (fun c => out !! c = Some (VStr [])) analysis_columns.
Proof.
  apply (failed_call_gives_empty_analysis (fun _ _ => Raise ModelError) []
           {[ "All_Content"%string :=
                VStr (txt "Call us at 555-123-4567 or email info@example.com for brake repair.") ]}
           ModelError).
  - vm_compute. discriminate.
  - reflexivity.
Defined.

(** C1, as stated, fails on its own example: with the content
    [Call us at 555-123-4567 or email info@example.com for brake repair.]
    the contacts extracted from the raw content are [555-123-4567] and
    [info@example.com], and after a failed model call the output row holds
    the empty string in [Extracted_Phones] and in [Extracted_Emails]. *)
Lemma failed_call_loses_contacts :
  let content :=
    txt "Call us at 555-123-4567 or email info@example.com for brake repair." in
  let row : gmap string value := {[ "All_Content"%string := VStr content ]} in
  let column c :=
    (process_row (fun _ _ => Raise ModelError) [] row).1 ≫= fun out =>
      subscript out c in
  (join (txt ", ") <$> extract_contact_info content !! "phones")
    = Some (txt "555-123-4567")
  /\ (join (txt ", ") <$> extract_contact_info content !! "emails")
    = Some (txt "info@example.com")
  /\ column "Extracted_Phones"%string = Ok (VStr [])
  /\ column "Extracted_Emails"%string = Ok (VStr [])
  /\ column "Extracted_Phones"%string <> Ok (VStr (txt "555-123-4567"))
  /\ column "Extracted_Emails"%string <> Ok (VStr (txt "info@example.com")).
Proof.
  cbn zeta.
  split; [vm_compute; reflexivity|]. split; [vm_compute; reflexivity|].
  split; [vm_compute; reflexivity|]. split; [vm_compute; reflexivity|].
  split; vm_compute; discriminate.
Qed.


(** A batch of three rows in which the second model call raises: three
    output rows, in order; the second has empty service columns, the first
    and the third carry what the model answered for them. *)
Example three_rows_second_call_raises :
  let answer (sent : list text) (_ : text) : may_raise text :=
    match sent with
    | [_] => Raise ModelError
    | _ => Ok (txt "Primary Services: [Brakes]")
    end in
  let row name content : gmap string value :=
    {[ "Name"%string := VStr (txt name);
       "All_Content"%string := VStr (txt content) ]} in
  let df := [ row "A" "brakes"; row "B" "tires"; row "C" "wash" ] in
  let column (c : string) (outs : list (gmap string value))
      : list (option value) := map (fun out => out !! c) outs in
  match (process_file answer df []).1 with
  | Ok outs =>
      column "Name" outs
        = [ Some (VStr (txt "A")); Some (VStr (txt "B")); Some (VStr (txt "C")) ]
      /\ column "Primary_Services" outs
        = [ Some (VStr (txt "Brakes")); Some (VStr []);
            Some (VStr (txt "Brakes")) ]
  | Raise _ => False
  end.
Proof. vm_compute. by split. Qed.

(** ** What a match consumes *)

Lemma all_chars_complete c : In c all_chars.
Proof.
  unfold all_chars. rewrite <- (ascii_nat_embedding c).
  apply in_map, in_seq. pose proof (nat_ascii_bounded c). lia.
Qed.

Lemma always_spec fl a P c :
  always fl a P = true -> atom_ok fl a c = true -> P c = true.
Proof.
  unfold always. rewrite forallb_forall. intros H Hc.
  specialize (H c (all_chars_complete c)). by rewrite Hc in H.
Qed.

Lemma never_spec fl a P c :
  never fl a P = true -> atom_ok fl a c = true -> P c = false.
Proof.
  unfold never. rewrite forallb_forall. intros H Hc.
  specialize (H c (all_chars_complete c)). rewrite Hc in H.
  by apply negb_true_iff.
Qed.

Lemma count_of_app P m1 m2 :
  count_of P (m1 ++ m2) = count_of P m1 + count_of P m2.
Proof. induction m1 as [|c m1 IH]; simpl; [done|]. rewrite IH. lia. Qed.

Lemma count_of_le P m : count_of P m <= length m.
Proof. induction m as [|c m IH]; simpl; [done|]. destruct (P c); lia. Qed.

Lemma count_of_all P m :
  Forall (fun c => P c = true) m -> count_of P m = length m.
Proof. induction 1 as [|c m Hc _ IH]; simpl; [done|]. by rewrite Hc, IH. Qed.

Lemma count_of_none P m :
  Forall (fun c => P c = false) m -> count_of P m = 0.
Proof. induction 1 as [|c m Hc _ IH]; simpl; [done|]. by rewrite Hc, IH. Qed.

Lemma count_of_zero P m :
  count_of P m = 0 -> Forall (fun c => P c = false) m.
Proof.
  induction m as [|c m IH]; simpl; [by constructor|].
  destruct (P c) eqn:E; [done|]. intros H. constructor; [done|]. by apply IH.
Qed.

Lemma after_nil b : after b [] = b.
Proof. done. Qed.

Lemma after_cons b c m : after b (c :: m) = after (Some c) m.
Proof. unfold after. rewrite last_cons. by destruct (last m). Qed.

Lemma after_app b m1 m2 : after (after b m1) m2 = after b (m1 ++ m2).
Proof. unfold after. rewrite last_app. by destruct (last m2). Qed.

(** What a quantified atom hands over to the rest of the pattern. *)
Lemma repeat_atom_consumed {R : Type} (ok : ascii -> bool) g s :
  forall lo hi b (k : option ascii -> text -> option R) q,
    repeat_atom ok g lo hi b s k = Some q ->
    exists m s',
      s = m ++ s'
      /\ Forall (fun c => ok c = true) m
      /\ lo <= length m
      /\ (forall h, hi = Some h -> length m <= lo `max` h)
      /\ k (after b m) s' = Some q.
Proof.
  assert (forall b (k : option ascii -> text -> option R) q lo hi s0,
            k b s0 = Some q -> lo = 0 ->
            exists m s', s0 = m ++ s'
              /\ Forall (fun c => ok c = true) m /\ lo <= length m
              /\ (forall h, hi = Some h -> length m <= lo `max` h)
              /\ k (after b m) s' = Some q) as Hstop.
  { intros b k q lo hi s0 Hk ->. exists [], s0. simpl.
    split; [done|]. split; [constructor|]. split; [lia|].
    split; [intros; lia|done]. }
  assert (forall c s0 lo hi b (k : option ascii -> text -> option R) q lo' hi',
            (exists m s', s0 = m ++ s'
               /\ Forall (fun c => ok c = true) m /\ lo' <= length m
               /\ (forall h, hi' = Some h -> length m <= lo' `max` h)
               /\ k (after (Some c) m) s' = Some q) ->
            ok c = true -> lo <= S lo' -> hi' = pred <$> hi ->
            (forall h, hi = Some h -> S lo' <= lo `max` h) ->
            exists m s', c :: s0 = m ++ s'
              /\ Forall (fun c => ok c = true) m /\ lo <= length m
              /\ (forall h, hi = Some h -> length m <= lo `max` h)
              /\ k (after b m) s' = Some q) as Hmore.
  { intros c s0 lo hi b k q lo' hi' (m & s' & -> & Hm & Hlo & Hhi & Hk)
      Hc Hle -> Hup.
    exists (c :: m), s'. split; [done|]. split; [by constructor|].
    split; [simpl; lia|]. split; [|by rewrite after_cons].
    intros h ->. specialize (Hhi (pred h) eq_refl). specialize (Hup h eq_refl).
    simpl. lia. }
  induction s as [|c s IH]; intros lo hi b k q Hrun.
  - destruct lo; [|done]. simpl in Hrun.
    destruct hi as [[|h]|], g; try (by eapply Hstop);
      destruct (k b []) eqn:Hk; try done; injection Hrun as ->;
      by eapply Hstop.
  - destruct lo as [|lo]; simpl in Hrun.
    + destruct hi as [[|h]|]; [by eapply Hstop| |];
        cbn [fmap option_fmap option_map Init.Nat.pred] in Hrun.
      * destruct g.
        -- destruct (ok c) eqn:Hc; [|by eapply Hstop].
           destruct (repeat_atom ok true 0 (Some h) (Some c) s k) eqn:Hin;
             [|by eapply Hstop].
           injection Hrun as ->.
           apply (Hmore c s 0 (Some (S h)) b k q 0 (Some h));
             [by apply IH|done|lia|done|]. intros ? [= <-]. lia.
        -- destruct (k b (c :: s)) eqn:Hk.
           ++ injection Hrun as ->. by eapply Hstop.
           ++ destruct (ok c) eqn:Hc; [|done].
              apply (Hmore c s 0 (Some (S h)) b k q 0 (Some h));
                [by apply IH|done|lia|done|]. intros ? [= <-]. lia.
      * destruct g.
        -- destruct (ok c) eqn:Hc; [|by eapply Hstop].
           destruct (repeat_atom ok true 0 None (Some c) s k) eqn:Hin;
             [|by eapply Hstop].
           injection Hrun as ->.
           apply (Hmore c s 0 None b k q 0 None);
             [by apply IH|done|lia|done|done].
        -- destruct (k b (c :: s)) eqn:Hk.
           ++ injection Hrun as ->. by eapply Hstop.
           ++ destruct (ok c) eqn:Hc; [|done].
              apply (Hmore c s 0 None b k q 0 None);
                [by apply IH|done|lia|done|done].
    + destruct (ok c) eqn:Hc; [|done].
      apply (Hmore c s (S lo) hi b k q lo (pred <$> hi));
        [by apply IH|done|lia|done|]. intros h _. lia.
Qed.

Lemma within_zero : within (0, Some 0) 0.
Proof. split; simpl; intros; lia. Qed.

Lemma within_seq b1 b2 n1 n2 :
  within b1 n1 -> within b2 n2 ->
  within (b1.1 + b2.1, add_bound b1.2 b2.2) (n1 + n2).
Proof.
  destruct b1 as [l1 [h1|]], b2 as [l2 [h2|]]; unfold within; simpl;
    intros [? H1] [? H2]; (split; [lia|]); intros h [= <-].
  specialize (H1 _ eq_refl). specialize (H2 _ eq_refl). lia.
Qed.

Lemma within_alt_l b1 b2 n :
  within b1 n -> within (b1.1 `min` b2.1, max_bound b1.2 b2.2) n.
Proof.
  destruct b1 as [l1 [h1|]], b2 as [l2 [h2|]]; unfold within; simpl;
    intros [? H1]; (split; [lia|]); intros h [= <-].
  specialize (H1 _ eq_refl). lia.
Qed.

Lemma within_alt_r b1 b2 n :
  within b2 n -> within (b1.1 `min` b2.1, max_bound b1.2 b2.2) n.
Proof.
  destruct b1 as [l1 [h1|]], b2 as [l2 [h2|]]; unfold within; simpl;
    intros [? H2]; (split; [lia|]); intros h [= <-].
  specialize (H2 _ eq_refl). lia.
Qed.

Lemma count_bounds_seq fl P r1 r2 :
  count_bounds fl P (Seq r1 r2) =
  ((count_bounds fl P r1).1 + (count_bounds fl P r2).1,
   add_bound (count_bounds fl P r1).2 (count_bounds fl P r2).2).
Proof.
  simpl. by destruct (count_bounds fl P r1), (count_bounds fl P r2).
Qed.

Lemma count_bounds_alt fl P r1 r2 :
  count_bounds fl P (Alt r1 r2) =
  ((count_bounds fl P r1).1 `min` (count_bounds fl P r2).1,
   max_bound (count_bounds fl P r1).2 (count_bounds fl P r2).2).
Proof.
  simpl. by destruct (count_bounds fl P r1), (count_bounds fl P r2).
Qed.

(** Whenever the matcher gets through a pattern, it has consumed a prefix
    of the text ahead whose [P]-characters are counted by [count_bounds],
    and has gone on with the rest of the pattern from there. *)
Lemma run_consumed fl P r :
  forall p k q,
    run fl r p k = Some q ->
    exists p' m,
      ahead p = m ++ ahead p'
      /\ before p' = after (before p) m
      /\ within (count_bounds fl P r) (count_of P m)
      /\ k p' = Some q.
Proof.
  induction r as [|a|a lo hi g|r1 IH1 r2 IH2|r1 IH1 r2 IH2| | |r1 IH1|r1 IH1];
    intros p k q Hrun.
  - exists p, []. split; [done|]. split; [done|]. split; [apply within_zero|done].
  - destruct p as [b [|c s'] g1]; simpl in Hrun; [done|].
    destruct (atom_ok fl a c) eqn:Hc; [|done].
    exists {| before := Some c; ahead := s'; group1 := g1 |}, [c].
    split; [done|]. split; [done|].
    split; [|done]. unfold within. cbn [count_bounds count_of fst snd]. split.
    + destruct (always fl a P) eqn:Ha; [|lia].
      by rewrite (always_spec _ _ _ _ Ha Hc).
    + intros h [= <-]. destruct (never fl a P) eqn:Hn.
      * by rewrite (never_spec _ _ _ _ Hn Hc).
      * destruct (P c); simpl; lia.
  - destruct p as [b s g1]. simpl in Hrun.
    apply repeat_atom_consumed in Hrun
      as (m & s' & Hs & Hm & Hlo & Hhi & Hk).
    exists {| before := after b m; ahead := s'; group1 := g1 |}, m.
    split; [done|]. split; [done|]. split; [|done].
    unfold within. cbn [count_bounds fst snd]. split.
    + destruct (always fl a P) eqn:Ha; [|lia].
      rewrite count_of_all; [done|].
      eapply Forall_impl; [exact Hm|]. intros c. by apply always_spec.
    + intros h Hh. destruct (never fl a P) eqn:Hn.
      * injection Hh as <-. rewrite count_of_none; [done|].
        eapply Forall_impl; [exact Hm|]. intros c. by apply never_spec.
      * destruct hi as [h'|]; [|done]. injection Hh as <-.
        pose proof (count_of_le P m). specialize (Hhi h' eq_refl). lia.
  - simpl in Hrun.
    apply IH1 in Hrun as (p1 & m1 & Hp1 & Hb1 & Hw1 & Hrun).
    apply IH2 in Hrun as (p2 & m2 & Hp2 & Hb2 & Hw2 & Hk).
    exists p2, (m1 ++ m2). split; [by rewrite Hp1, Hp2, app_assoc|].
    split; [by rewrite Hb2, Hb1, after_app|]. split; [|done].
    rewrite count_bounds_seq, count_of_app. by apply within_seq.
  - simpl in Hrun. destruct (run fl r1 p k) eqn:H1.
    + injection Hrun as ->.
      apply IH1 in H1 as (p1 & m1 & Hp1 & Hb1 & Hw1 & Hk).
      exists p1, m1. repeat (split; [done|]). split; [|done].
      rewrite count_bounds_alt. by apply within_alt_l.
    + apply IH2 in Hrun as (p2 & m2 & Hp2 & Hb2 & Hw2 & Hk).
      exists p2, m2. repeat (split; [done|]). split; [|done].
      rewrite count_bounds_alt. by apply within_alt_r.
  - simpl in Hrun. destruct (xorb _ _); [|done].
    exists p, []. split; [done|]. split; [done|]. split; [apply within_zero|done].
  - simpl in Hrun. destruct (at_end _); [|done].
    exists p, []. split; [done|]. split; [done|]. split; [apply within_zero|done].
  - destruct p as [b s g1]. simpl in Hrun.
    destruct (run fl r1 _ Some) as [q1|]; [|done].
    exists {| before := b; ahead := s; group1 := group1 q1 |}, []. split; [by simpl|]. split; [by simpl|].
    split; [apply within_zero|done].
  - simpl in Hrun.
    apply IH1 in Hrun as (p1 & m1 & Hp1 & Hb1 & Hw1 & Hk).
    exists {| before := before p1; ahead := ahead p1;
              group1 := Some (take (length (ahead p) - length (ahead p1))
                                   (ahead p)) |}, m1.
    split; [done|]. split; [done|]. by split.
Qed.

Lemma match_here_consumed fl P r b s q :
  match_here fl r b s = Some q ->
  exists m,
    s = m ++ ahead q
    /\ before q = after b m
    /\ within (count_bounds fl P r) (count_of P m).
Proof.
  intros H. apply (run_consumed fl P) in H as (p' & m & Hs & Hb & Hw & [= ->]).
  by exists m.
Qed.

(** A pattern that ends with [\b] stops at a word boundary. *)
Lemma run_ends_at_boundary fl r :
  ends_at_boundary r = true ->
  forall p k q,
    run fl r p k = Some q ->
    exists p',
      xorb (word_char (before p')) (word_char (head (ahead p'))) = true
      /\ k p' = Some q.
Proof.
  induction r as [|a|a lo hi g|r1 IH1 r2 IH2|r1 IH1 r2 IH2| | |r1 IH1|r1 IH1];
    try done.
  - intros Hends p k q Hrun.
    assert (ends_at_boundary r2 = true
            \/ (r2 = Empty /\ ends_at_boundary r1 = true)) as [H2|[-> H1]].
    { simpl in Hends. destruct r2; auto. }
    + simpl in Hrun.
      apply (run_consumed fl (fun _ => true)) in Hrun
        as (p1 & _ & _ & _ & _ & Hrun).
      by apply (IH2 H2) in Hrun.
    + simpl in Hrun. by apply (IH1 H1) in Hrun.
  - intros _ p k q Hrun. simpl in Hrun.
    destruct (xorb _ _) eqn:Hx; [|done]. by exists p.
Qed.

(** Every entry of [findall] lies in the text, between what precedes it and
    what follows it, and is what the pattern consumes at that place. *)
Lemma findall_from_elem fl r x s :
  forall skip b,
    x ∈ findall_from fl r skip b s ->
    exists pre post q,
      s = pre ++ x ++ post
      /\ match_here fl r (after b pre) (x ++ post) = Some q
      /\ ahead q = post.
Proof.
  assert (forall b s0 q, match_here fl r b s0 = Some q ->
            take (length s0 - length (ahead q)) s0 ++ ahead q = s0) as Htake.
  { intros b s0 q Hq.
    apply (match_here_consumed fl (fun _ => true)) in Hq as (m & Hs & _).
    rewrite Hs, length_app.
    replace (length m + length (ahead q) - length (ahead q)) with (length m)
      by lia.
    by rewrite take_app_length. }
  induction s as [|c s IH]; intros skip b Hx.
  - destruct skip; simpl in Hx; [|by apply elem_of_nil in Hx].
    destruct (match_here fl r b []) as [q|] eqn:Hq;
      [|by apply elem_of_nil in Hx].
    apply list_elem_of_singleton in Hx as ->.
    pose proof (Htake _ _ _ Hq) as Hs. rewrite take_nil in Hs. simpl in Hs.
    exists [], [], q. by rewrite Hs in *.
  - assert (forall n, x ∈ findall_from fl r n (Some c) s ->
              exists pre post q,
                c :: s = pre ++ x ++ post
                /\ match_here fl r (after b pre) (x ++ post) = Some q
                /\ ahead q = post) as Hlater.
    { intros n Hn. apply IH in Hn as (pre & post & q & -> & Hq & Hpost).
      exists (c :: pre), post, q. by rewrite after_cons. }
    destruct skip; cbn [findall_from] in Hx; [|by eapply Hlater].
    destruct (match_here fl r b (c :: s)) as [q|] eqn:Hq; [|by eapply Hlater].
    apply elem_of_cons in Hx as [->|Hx]; [|by eapply Hlater].
    pose proof (Htake _ _ _ Hq) as Hs.
    exists [], (ahead q), q. rewrite app_nil_l, after_nil, Hs. done.
Qed.

Lemma after_None m : after None m = last m.
Proof. unfold after. by destruct (last m). Qed.

Lemma count_of_true m : count_of (fun _ => true) m = length m.
Proof. induction m as [|c m IH]; simpl; [done|]. by rewrite IH. Qed.

(** Every entry of [findall] is a stretch of the text on which the pattern
    matches from its first to its last character. *)
Lemma findall_elem fl r x content :
  x ∈ findall fl r content ->
  exists pre post q,
    content = pre ++ x ++ post
    /\ match_here fl r (last pre) (x ++ post) = Some q
    /\ ahead q = post.
Proof.
  intros Hx. apply findall_from_elem in Hx as (pre & post & q & Hs & Hq & Hp).
  exists pre, post, q. by rewrite <- after_None.
Qed.

Lemma match_here_exact fl P r b x post q :
  match_here fl r b (x ++ post) = Some q ->
  ahead q = post ->
  within (count_bounds fl P r) (count_of P x) /\ before q = after b x.
Proof.
  intros Hq Hpost.
  apply (match_here_consumed fl P) in Hq as (m & Hs & Hb & Hw).
  rewrite Hpost in Hs. apply app_inv_tail in Hs as ->. by split.
Qed.

Lemma match_here_starts_at_boundary fl r b s q :
  starts_at_boundary r = true ->
  match_here fl r b s = Some q ->
  xorb (word_char b) (word_char (head s)) = true.
Proof.
  destruct r as [| | |r1 r2| | | | |]; try done.
  destruct r1; try done. intros _. unfold match_here. simpl.
  by destruct (xorb _ _).
Qed.

Lemma match_here_ends_at_boundary fl r b s q :
  ends_at_boundary r = true ->
  match_here fl r b s = Some q ->
  xorb (word_char (before q)) (word_char (head (ahead q))) = true.
Proof.
  intros Hends Hq. unfold match_here in Hq.
  by apply (run_ends_at_boundary fl r Hends) in Hq as (p' & Hx & [= ->]).
Qed.

(** What holds of every entry of [findall] for a pattern that is held
    between two [\b]. *)
Lemma findall_word fl r x content :
  starts_at_boundary r = true ->
  ends_at_boundary r = true ->
  1 <= (count_bounds fl (fun _ => true) r).1 ->
  x ∈ findall fl r content ->
  exists pre post,
    content = pre ++ x ++ post
    /\ xorb (word_char (last pre)) (word_char (head x)) = true
    /\ xorb (word_char (last x)) (word_char (head post)) = true
    /\ forall P, within (count_bounds fl P r) (count_of P x).
Proof.
  intros Hstart Hend Hmin Hx.
  apply findall_elem in Hx as (pre & post & q & Hs & Hq & Hpost).
  exists pre, post. split; [done|].
  destruct (match_here_exact fl (fun _ => true) r _ _ _ _ Hq Hpost)
    as [[Hlen _] Hb].
  rewrite count_of_true in Hlen.
  destruct x as [|c x]; [simpl in Hlen; lia|].
  split; [by apply (match_here_starts_at_boundary _ _ _ _ _ Hstart Hq)|].
  split.
  - pose proof (match_here_ends_at_boundary _ _ _ _ _ Hend Hq) as Hx.
    rewrite Hb, Hpost in Hx. unfold after in Hx.
    destruct (last (c :: x)) eqn:El; [done|].
    by apply last_None in El.
  - intros P. by destruct (match_here_exact fl P r _ _ _ _ Hq Hpost).
Qed.

Lemma phone_pattern_bounds :
  starts_at_boundary phone_pattern = true
  /\ ends_at_boundary phone_pattern = true
  /\ count_bounds no_flags (fun _ => true) phone_pattern = (10, Some 19)
  /\ count_bounds no_flags isdecimal phone_pattern = (10, Some 13)
  /\ count_bounds no_flags (fun c => negb (phone_char c)) phone_pattern
     = (0, Some 0).
Proof. repeat split; vm_compute; reflexivity. Qed.

Lemma email_pattern_bounds :
  starts_at_boundary email_pattern = true
  /\ ends_at_boundary email_pattern = true
  /\ count_bounds no_flags (fun _ => true) email_pattern = (6, None)
  /\ count_bounds no_flags (fun c => eq_char c "@") email_pattern = (1, Some 1)
  /\ count_bounds no_flags (fun c => eq_char c ".") email_pattern = (1, None)
  /\ count_bounds no_flags (fun c => negb (email_char c)) email_pattern
     = (0, Some 0).
Proof. repeat split; vm_compute; reflexivity. Qed.

(** ** The contacts that are returned *)

Lemma extract_contact_info_lookup content :
  extract_contact_info content !! "phones"
    = Some (list_set (findall no_flags phone_pattern content))
  /\ extract_contact_info content !! "emails"
    = Some (list_set (findall no_flags email_pattern content)).
Proof. unfold extract_contact_info. split; by simplify_map_eq. Qed.

Lemma phone_match_facts x content :
  x ∈ findall no_flags phone_pattern content ->
  exists pre post,
    content = pre ++ x ++ post
    /\ xorb (word_char (last pre)) (word_char (head x)) = true
    /\ xorb (word_char (last x)) (word_char (head post)) = true
    /\ forall P, within (count_bounds no_flags P phone_pattern) (count_of P x).
Proof.
  destruct phone_pattern_bounds as (Hs & He & Hlen & _).
  apply findall_word; [done|done|]. rewrite Hlen. simpl. lia.
Qed.

Lemma email_match_facts x content :
  x ∈ findall no_flags email_pattern content ->
  exists pre post,
    content = pre ++ x ++ post
    /\ xorb (word_char (last pre)) (word_char (head x)) = true
    /\ xorb (word_char (last x)) (word_char (head post)) = true
    /\ forall P, within (count_bounds no_flags P email_pattern) (count_of P x).
Proof.
  destruct email_pattern_bounds as (Hs & He & Hlen & _).
  apply findall_word; [done|done|]. rewrite Hlen. simpl. lia.
Qed.

Lemma count_of_negb_zero P m :
  count_of (fun c => negb (P c)) m = 0 -> Forall (fun c => P c = true) m.
Proof.
  intros H. apply count_of_zero in H. eapply Forall_impl; [exact H|].
  intros c Hc. by apply negb_false_iff.
Qed.

(** X1: every phone that [extract_contact_info] returns, for any content,
    holds at least 10 and at most 13 decimal digits, is 10 to 19 characters
    long, and is made only of digits, white space and the characters
    [+ ( ) - .]. *)
Theorem extracted_phones_shape (content : text) :
  exists phones,
    extract_contact_info content !! "phones" = Some phones
    /\ Forall (fun x =>
         10 <= count_of isdecimal x <= 13
         /\ 10 <= length x <= 19
         /\ Forall (fun c => phone_char c = true) x) phones.
Proof.
  destruct (extract_contact_info_lookup content) as [Hp _].
  eexists. split; [exact Hp|]. apply Forall_forall. intros x Hx.
  apply elem_of_list_set, phone_match_facts in Hx
    as (pre & post & _ & _ & _ & Hw).
  destruct phone_pattern_bounds as (_ & _ & Hlen & Hdig & Hchar).
  pose proof (Hw (fun _ => true)) as [L1 L2].
  pose proof (Hw isdecimal) as [D1 D2].
  pose proof (Hw (fun c => negb (phone_char c))) as [_ C2].
  rewrite Hlen in L1, L2. rewrite Hdig in D1, D2. rewrite Hchar in C2.
  rewrite count_of_true in L1, L2. cbn [fst snd] in L1, L2, D1, D2, C2.
  specialize (L2 _ eq_refl). specialize (D2 _ eq_refl).
  specialize (C2 _ eq_refl).
  split; [lia|]. split; [lia|]. apply count_of_negb_zero. lia.
Qed.

(** X2: every email that [extract_contact_info] returns, for any content,
    holds exactly one ["@"] and at least one ["."], is at least 6 characters
    long, and is made only of ASCII letters, digits and the characters
    [. _ % + - @ |]; in particular it holds no white space. *)
Theorem extracted_emails_shape (content : text) :
  exists emails,
    extract_contact_info content !! "emails" = Some emails
    /\ Forall (fun x =>
         count_of (fun c => eq_char c "@") x = 1
         /\ 1 <= count_of (fun c => eq_char c ".") x
         /\ 6 <= length x
         /\ Forall (fun c => email_char c = true /\ isspace c = false) x)
       emails.
Proof.
  destruct (extract_contact_info_lookup content) as [_ He].
  eexists. split; [exact He|]. apply Forall_forall. intros x Hx.
  apply elem_of_list_set, email_match_facts in Hx
    as (pre & post & _ & _ & _ & Hw).
  destruct email_pattern_bounds as (_ & _ & Hlen & Hat & Hdot & Hchar).
  pose proof (Hw (fun _ => true)) as [L1 _].
  pose proof (Hw (fun c => eq_char c "@")) as [A1 A2].
  pose proof (Hw (fun c => eq_char c ".")) as [D1 _].
  pose proof (Hw (fun c => negb (email_char c))) as [_ C2].
  rewrite Hlen in L1. rewrite Hat in A1, A2. rewrite Hdot in D1.
  rewrite Hchar in C2. rewrite count_of_true in L1.
  cbn [fst snd] in L1, A1, A2, D1, C2.
  specialize (A2 _ eq_refl). specialize (C2 _ eq_refl).
  split; [lia|]. split; [lia|]. split; [lia|].
  assert (count_of (fun c => negb (email_char c)) x = 0) as Hz by lia.
  apply count_of_negb_zero in Hz.
  eapply Forall_impl; [exact Hz|]. intros c Hc. split; [done|].
  assert (forallb (fun c => implb (email_char c) (negb (isspace c))) all_chars
          = true) as Hall by (vm_compute; reflexivity).
  rewrite forallb_forall in Hall. specialize (Hall c (all_chars_complete c)).
  rewrite Hc in Hall. by apply negb_true_iff.
Qed.

(** X3: every phone that [extract_contact_info] returns occurs in the
    content as it stands, and it is held between two word boundaries: of the
    character before it and its first character exactly one is a word
    character, and so for its last character and the character after it.
    Hence a phone that opens the content, or follows a character that is
    not a word character, begins with a digit: a leading ["+"] or ["("] is
    only taken when a word character stands right before it. *)
Theorem extracted_phones_in_content (content : text) :
  exists phones,
    extract_contact_info content !! "phones" = Some phones
    /\ Forall (fun x =>
         exists pre post,
           content = pre ++ x ++ post
           /\ xorb (word_char (last pre)) (word_char (head x)) = true
           /\ xorb (word_char (last x)) (word_char (head post)) = true
           /\ (word_char (last pre) = false ->
               exists c, head x = Some c /\ isdecimal c = true)) phones.
Proof.
  destruct (extract_contact_info_lookup content) as [Hp _].
  eexists. split; [exact Hp|]. apply Forall_forall. intros x Hx.
  apply elem_of_list_set, phone_match_facts in Hx
    as (pre & post & Hs & Hstart & Hend & Hw).
  exists pre, post. repeat (split; [done|]).
  intros Hpre. rewrite Hpre in Hstart. simpl in Hstart.
  destruct x as [|c x]; [done|]. exists c. split; [done|].
  destruct phone_pattern_bounds as (_ & _ & _ & _ & Hchar).
  pose proof (Hw (fun c => negb (phone_char c))) as [_ C2].
  rewrite Hchar in C2. specialize (C2 _ eq_refl).
  assert (count_of (fun c => negb (phone_char c)) (c :: x) = 0) as Hz by lia.
  apply count_of_negb_zero, Forall_cons in Hz as [Hc _].
  assert (forallb (fun c => implb (phone_char c && isword c) (isdecimal c))
            all_chars = true) as Hall by (vm_compute; reflexivity).
  rewrite forallb_forall in Hall. specialize (Hall c (all_chars_complete c)).
  simpl in Hstart. by rewrite Hc, Hstart in Hall.
Qed.

(** X4: every email that [extract_contact_info] returns occurs in the
    content as it stands, held between two word boundaries. *)
Theorem extracted_emails_in_content (content : text) :
  exists emails,
    extract_contact_info content !! "emails" = Some emails
    /\ Forall (fun x =>
         exists pre post,
           content = pre ++ x ++ post
           /\ xorb (word_char (last pre)) (word_char (head x)) = true
           /\ xorb (word_char (last x)) (word_char (head post)) = true)
       emails.
Proof.
  destruct (extract_contact_info_lookup content) as [_ He].
  eexists. split; [exact He|]. apply Forall_forall. intros x Hx.
  apply elem_of_list_set, email_match_facts in Hx
    as (pre & post & Hs & Hstart & Hend & _).
  by exists pre, post.
Qed.

Lemma list_set_nil : list_set [] = [].
Proof. unfold list_set. simpl. apply elements_empty. Qed.

Lemma count_of_infix P pre x post :
  count_of P x <= count_of P (pre ++ x ++ post).
Proof. rewrite !count_of_app. lia. Qed.

(** X5: a content with fewer than ten decimal digits yields no phone. *)
Theorem few_digits_no_phone (content : text) :
  count_of isdecimal content < 10 ->
  extract_contact_info content !! "phones" = Some [].
Proof.
  intros Hfew. destruct (extract_contact_info_lookup content) as [-> _].
  destruct (findall no_flags phone_pattern content) as [|x l] eqn:Hall;
    [by rewrite list_set_nil|].
  assert (x ∈ findall no_flags phone_pattern content) as Hx
    by (rewrite Hall; apply elem_of_cons; by left).
  apply phone_match_facts in Hx as (pre & post & Hs & _ & _ & Hw).
  destruct phone_pattern_bounds as (_ & _ & _ & Hdig & _).
  pose proof (Hw isdecimal) as [D1 _]. rewrite Hdig in D1. simpl in D1.
  pose proof (count_of_infix isdecimal pre x post). rewrite <- Hs in *. lia.
Qed.

Lemma few_digits_no_phone_witness :
  extract_contact_info (txt "Open 9-5, call 555-1234 or write to info@example.com")
    !! "phones" = Some [].
Proof.
  apply (few_digits_no_phone
           (txt "Open 9-5, call 555-1234 or write to info@example.com")).
  vm_compute. lia.
Defined.

(** X6: a content without ["@"] yields no email. *)
Theorem no_at_sign_no_email (content : text) :
  "@"%char ∉ content ->
  extract_contact_info content !! "emails" = Some [].
Proof.
  intros Hno. destruct (extract_contact_info_lookup content) as [_ ->].
  destruct (findall no_flags email_pattern content) as [|x l] eqn:Hall;
    [by rewrite list_set_nil|].
  assert (x ∈ findall no_flags email_pattern content) as Hx
    by (rewrite Hall; apply elem_of_cons; by left).
  apply email_match_facts in Hx as (pre & post & Hs & _ & _ & Hw).
  destruct email_pattern_bounds as (_ & _ & _ & Hat & _).
  pose proof (Hw (fun c => eq_char c "@")) as [A1 _].
  rewrite Hat in A1. simpl in A1.
  pose proof (count_of_infix (fun c => eq_char c "@") pre x post) as Hle.
  rewrite <- Hs in Hle.
  rewrite (count_of_none _ content) in Hle; [lia|].
  apply Forall_forall. intros c Hc. unfold eq_char.
  apply bool_decide_eq_false. intros ->. exact (Hno Hc).
Qed.

Lemma no_at_sign_no_email_witness :
  extract_contact_info (txt "Call us at 555-123-4567, mail: info at example.com")
    !! "emails" = Some [].
Proof.
  apply (no_at_sign_no_email
           (txt "Call us at 555-123-4567, mail: info at example.com")).
  apply (bool_decide_unpack _). vm_compute. exact I.
Defined.

(** ** The service fields *)

Lemma replace_app old new s1 s2 :
  replace old new (s1 ++ s2) = replace old new s1 ++ replace old new s2.
Proof.
  induction s1 as [|c s1 IH]; simpl; [done|]. by rewrite IH, app_assoc.
Qed.

Lemma replace_without_old old new s :
  (old ∉ new) -> (old ∉ replace old new s).
Proof.
  intros Hnew. induction s as [|c s IH]; simpl; [apply not_elem_of_nil|].
  rewrite elem_of_app. intros [H|H]; [|done].
  unfold eq_char in H. case_bool_decide as Hc; [done|].
  apply list_elem_of_singleton in H. by subst.
Qed.

Lemma tidy_facts body :
  (newline ∉ tidy body)
  /\ (forall c, head (tidy body) = Some c -> is_bracket c = false)
  /\ (forall c, last (tidy body) = Some c -> is_bracket c = false).
Proof.
  unfold tidy. split.
  { apply replace_without_old. intros H.
    repeat (apply elem_of_cons in H as [H|H]; [discriminate H|]).
    by apply elem_of_nil in H. }
  destruct (strip_with_spec is_bracket (strip body))
    as (l & r & _ & _ & _ & Hhead & Hlast).
  change (strip_with is_bracket (strip body))
    with (strip_chars (txt "[]") (strip body)) in *.
  set (core := strip_chars (txt "[]") (strip body)) in *. clearbody core.
  split.
  - intros c Hc. destruct core as [|c0 core']; [done|]. simpl in Hc.
    unfold eq_char in Hc. case_bool_decide.
    + by injection Hc as <-.
    + injection Hc as <-. by apply Hhead.
  - intros c Hc. destruct (last core) as [c0|] eqn:El.
    + apply last_Some in El as [core' ->]. rewrite replace_app in Hc.
      simpl in Hc. rewrite app_nil_r in Hc. unfold eq_char in Hc.
      case_bool_decide.
      * rewrite last_app in Hc. by injection Hc as <-.
      * rewrite last_app in Hc. injection Hc as <-. by apply Hlast.
    + apply last_None in El. by rewrite El in Hc.
Qed.

(** X7: in every result of [_parse_detailed_response] each of the three
    service fields holds no line feed (the character of code 10, the one
    that [replace] rewrites) and neither begins nor ends with a square
    bracket.  Nothing is said of other characters that break a line: a
    carriage return stays where it is, see [carriage_return_is_kept]. *)
Theorem service_fields_no_line_feed (response original_content : text) :
  exists d,
    _parse_detailed_response response original_content = Ok d
    /\ Forall (fun '(key, _) =>
         exists v : text,
           d !! key = Some v
           /\ (newline ∉ v)
           /\ (forall c, head v = Some c -> is_bracket c = false)
           /\ (forall c, last v = Some c -> is_bracket c = false))
       service_sections.
Proof.
  destruct (parse_detailed_response_sections response original_content)
    as (d & Hd & Hfield).
  exists d. split; [done|]. apply Forall_forall. intros [key h] Hin.
  exists (section_field h response). split; [by apply Hfield|].
  unfold section_field. destruct (find_nocase h response) as [i|].
  - apply tidy_facts.
  - split; [apply not_elem_of_nil|]. by split.
Qed.

(** A response with a carriage return before the line feed: only the line
    feed is rewritten. *)
Example carriage_return_is_kept :
  let cr := ascii_of_nat 13 in
  (_parse_detailed_response
     (txt "Primary Services: a" ++ cr :: newline :: txt "b") []
   ≫= fun d => subscript d "primary_services")
  = Ok (txt "a" ++ cr :: txt ", b").
Proof. vm_compute. reflexivity. Qed.

(** ** Rows that the model answers *)

Lemma analyze_content_answered gc sent content response :
  gc sent (prompt_for content) = Ok response ->
  _parse_detailed_response response content
  = Ok (analyze_content gc sent content).1.
Proof.
  intros Hgc. unfold analyze_content. rewrite Hgc. cbn [mbind may_raise_bind].
  by destruct (parse_detailed_response_fields response content)
    as (d & -> & _).
Qed.

(** X8: for every row whose [All_Content] is not empty after trimming and
    whose model call returns a response, one prompt is sent and the output
    row carries the result of [_parse_detailed_response] on that response
    and that content; the two contact columns are the [", "]-joined phones
    and emails that [extract_contact_info] finds in the row's own content,
    whatever the response holds. *)
Theorem answered_row_columns
    (generate_content : list text -> text -> may_raise text)
    (sent : list text) (row : gmap string value) (response : text) :
  let content := str (get row "All_Content") in
  strip content <> [] ->
  generate_content sent (prompt_for content) = Ok response ->
  exists out d,
    process_row generate_content sent row
      = (Ok out, sent ++ [prompt_for content])
    /\ _parse_detailed_response response content = Ok d
    /\ out !! "Primary_Services" = VStr <$> d !! "primary_services"
    /\ out !! "Secondary_Services" = VStr <$> d !! "secondary_services"
    /\ out !! "Additional_Services" = VStr <$> d !! "additional_services"
    /\ out !! "Extracted_Phones"
       = (fun l => VStr (join (txt ", ") l))
           <$> extract_contact_info content !! "phones"
    /\ out !! "Extracted_Emails"
       = (fun l => VStr (join (txt ", ") l))
           <$> extract_contact_info content !! "emails".
Proof.
  intros content Hcontent Hanswer.
  destruct (process_row_spec generate_content sent row)
    as (out & Hrow & _ & H1 & H2 & H3 & H4 & H5).
  pose proof (analyze_content_answered _ _ _ _ Hanswer) as Hd.
  fold content in H1, H2, H3, H4, H5, Hd.
  cbn zeta in *. unfold prompts_of in Hrow. simpl in Hrow.
  fold content in Hrow.
  destruct (strip content) as [|c s] eqn:Hs; [done|].
  rewrite app_nil_r in Hrow.
  exists out, (analyze_content generate_content sent content).1.
  repeat (split; [done|]).
  destruct (parse_detailed_response_fields response content)
    as (d & Hd' & _ & _ & _ & _ & Hp & He).
  rewrite Hd' in Hd. injection Hd as Hd. subst d.
  destruct (extract_contact_info_lookup content) as [-> ->].
  rewrite H4, H5, Hp, He. done.
Qed.

Lemma answered_row_columns_witness :
  let answer : list text -> text -> may_raise text :=
    fun _ _ => Ok (txt "Primary Services: [Towing] call 555-000-1111") in
  let row : gmap string value :=
    {[ "All_Content"%string := VStr (txt "Brakes, call 555-123-4567") ]} in
  let content := str (get row "All_Content") in
  exists out d,
    process_row answer [] row = (Ok out, [] ++ [prompt_for content])
    /\ _parse_detailed_response
         (txt "Primary Services: [Towing] call 555-000-1111") content = Ok d
    /\ out !! "Primary_Services" = VStr <$> d !! "primary_services"
    /\ out !! "Secondary_Services" = VStr <$> d !! "secondary_services"
    /\ out !! "Additional_Services" = VStr <$> d !! "additional_services"
    /\ out !! "Extracted_Phones"
       = (fun l => VStr (join (txt ", ") l))
           <$> extract_contact_info content !! "phones"
    /\ out !! "Extracted_Emails"
       = (fun l => VStr (join (txt ", ") l))
           <$> extract_contact_info content !! "emails".
Proof.
  intros answer row content.
  apply (answered_row_columns answer [] row
           (txt "Primary Services: [Towing] call 555-000-1111")).
  - vm_compute. discriminate.
  - reflexivity.
Defined.

(** ** Output rows *)

Lemma processed_row_dom row analysis out :
  processed_row row analysis = Ok out -> dom out = output_columns.
Proof.
  unfold processed_row, subscript.
  destruct (analysis !! "primary_services"); [|done].
  destruct (analysis !! "secondary_services"); [|done].
  destruct (analysis !! "additional_services"); [|done].
  destruct (analysis !! "phones"); [|done].
  destruct (analysis !! "emails"); [|done].
  cbn [mbind may_raise_bind]. intros [= <-].
  rewrite !dom_insert_L, dom_empty_L.
  unfold output_columns, kept_columns, analysis_columns, service_columns.
  simpl. set_solver.
Qed.

(** X9: every output row, for any input row and whatever the model does,
    has exactly the twelve columns [Name], [Address], [Rating_text],
    [Opening_Time], [Phone_Number], [GMAP], [Website], [Primary_Services],
    [Secondary_Services], [Additional_Services], [Extracted_Phones],
    [Extracted_Emails]: other columns of the input row are not carried
    over, and a kept column that the input row lacks holds the empty
    string. *)
Theorem output_row_schema
    (generate_content : list text -> text -> may_raise text)
    (sent : list text) (row : gmap string value) :
  exists out,
    (process_row generate_content sent row).1 = Ok out
    /\ dom out = output_columns
    /\ Forall (fun c => row !! c = None -> out !! c = Some (VStr []))
         kept_columns.
Proof.
  destruct (process_row_spec generate_content sent row)
    as (out & Hrow & Hkept & _).
  exists out. split; [by rewrite Hrow|]. split.
  - unfold process_row in Hrow.
    destruct (match strip _ with [] => _ | _ :: _ => _ end) as [analysis s'].
    injection Hrow as Hout _. by apply processed_row_dom in Hout.
  - eapply Forall_impl; [exact Hkept|]. intros c Hc Hnone. simpl in Hc.
    by rewrite Hc; unfold get; rewrite Hnone.
Qed.

(** X10: a row whose [All_Content] cell is blank in the sheet reaches the
    code as [nan]; its string form [nan] is not empty, so the row is not
    skipped: one prompt is sent, for the content [nan]. *)
Theorem blank_cell_is_sent_as_nan
    (generate_content : list text -> text -> may_raise text)
    (sent : list text) (row : gmap string value) :
  row !! "All_Content" = Some VNaN ->
  (process_row generate_content sent row).2
  = sent ++ [prompt_for (txt "nan")].
Proof.
  intros Hnan.
  destruct (process_row_spec generate_content sent row) as (out & -> & _).
  cbn [snd]. f_equal. unfold prompts_of. cbn [flat_map]. unfold get.
  rewrite Hnan. reflexivity.
Qed.

Lemma blank_cell_is_sent_as_nan_witness :
  (process_row (fun _ _ => Raise ModelError) []
     {[ "Name"%string := VStr (txt "Garage"); "All_Content"%string := VNaN ]}).2
  = [] ++ [prompt_for (txt "nan")].
Proof.
  apply (blank_cell_is_sent_as_nan (fun _ _ => Raise ModelError) []
           {[ "Name"%string := VStr (txt "Garage");
              "All_Content"%string := VNaN ]}).
  vm_compute. reflexivity.
Defined.

(** ** Sheets *)

Lemma rows_loop_acc gc rows : forall acc sent,
  rows_loop gc rows acc sent =
  match rows_loop gc rows [] sent with
  | (Ok outs, sent') => (Ok (acc ++ outs), sent')
  | (Raise e, sent') => (Raise e, sent')
  end.
Proof.
  induction rows as [|row rows IH]; intros acc sent; cbn [rows_loop].
  - by rewrite app_nil_r.
  - destruct (process_row gc sent row) as [[out|e] sent']; [|done].
    rewrite (IH (acc ++ [out])), (IH ([] ++ [out])).
    destruct (rows_loop gc rows [] sent') as [[outs|e] s]; [|done].
    by rewrite <- app_assoc.
Qed.

Lemma rows_loop_app gc rows1 rows2 : forall acc sent,
  rows_loop gc (rows1 ++ rows2) acc sent =
  match rows_loop gc rows1 acc sent with
  | (Ok outs, sent') => rows_loop gc rows2 outs sent'
  | (Raise e, sent') => (Raise e, sent')
  end.
Proof.
  induction rows1 as [|row rows1 IH]; intros acc sent; simpl; [done|].
  destruct (process_row gc sent row) as [[out|e] sent']; [|done].
  apply IH.
Qed.

(** X11: processing a sheet in two consecutive parts, the second part
    starting from the prompts sent by the end of the first, gives the rows
    of the first part followed by the rows of the second: the same frame as
    processing the whole sheet at once. *)
Theorem process_file_app
    (generate_content : list text -> text -> may_raise text)
    (df1 df2 : list (gmap string value)) (sent : list text) :
  exists outs1 sent1 outs2 sent2,
    process_file generate_content df1 sent = (Ok outs1, sent1)
    /\ process_file generate_content df2 sent1 = (Ok outs2, sent2)
    /\ process_file generate_content (df1 ++ df2) sent
       = (Ok (outs1 ++ outs2), sent2).
Proof.
  unfold process_file.
  destruct (rows_loop_spec generate_content df1 [] sent)
    as (outs1 & H1 & _).
  destruct (rows_loop_spec generate_content df2 [] (sent ++ prompts_of df1))
    as (outs2 & H2 & _).
  simpl in H1, H2.
  exists outs1, (sent ++ prompts_of df1), outs2,
         ((sent ++ prompts_of df1) ++ prompts_of df2).
  split; [done|]. split; [done|].
  by rewrite rows_loop_app, H1, rows_loop_acc, H2.
Qed.

Lemma process_row_pure gc sent sent' row :
  (forall s s' prompt, gc s prompt = gc s' prompt) ->
  (process_row gc sent row).1 = (process_row gc sent' row).1.
Proof.
  intros Hpure. unfold process_row.
  destruct (strip (str (get row "All_Content"))); [done|].
  unfold analyze_content. rewrite (Hpure sent sent').
  by destruct (_ ≫= _).
Qed.

(** X12: when the model's answer depends on the prompt alone, the output
    row of an input row is the same wherever the row stands in the sheet
    and whatever the other rows are: the frame is, row by row, what
    [process_row] gives for each input row on its own. *)
Theorem rows_processed_independently
    (generate_content : list text -> text -> may_raise text)
    (df : list (gmap string value)) (sent : list text) :
  (forall s s' prompt, generate_content s prompt = generate_content s' prompt) ->
  exists outs,
    (process_file generate_content df sent).1 = Ok outs
    /\ Forall2 (fun row out => (process_row generate_content [] row).1 = Ok out)
         df outs.
Proof.
  intros Hpure. unfold process_file.
  destruct (rows_loop_spec generate_content df [] sent)
    as (outs & Hloop & Hlen & Hnth).
  exists outs. split; [by rewrite Hloop|].
  apply Forall2_same_length_lookup_2; [done|].
  intros i row out Hrow Hout.
  destruct (Hnth i row Hrow) as (out' & Hout' & Hp).
  rewrite Hout in Hout'. injection Hout' as <-.
  by rewrite <- Hp; apply process_row_pure.
Qed.

Lemma rows_processed_independently_witness :
  exists outs,
    (process_file (fun _ _ => Ok (txt "Primary Services: [Towing]"))
       [ {[ "All_Content"%string := VStr (txt "towing") ]}; ∅ ] []).1 = Ok outs
    /\ Forall2
         (fun row out =>
            (process_row (fun _ _ => Ok (txt "Primary Services: [Towing]"))
               [] row).1 = Ok out)
         [ {[ "All_Content"%string := VStr (txt "towing") ]}; ∅ ] outs.
Proof.
  apply (rows_processed_independently
           (fun _ _ => Ok (txt "Primary Services: [Towing]"))
           [ {[ "All_Content"%string := VStr (txt "towing") ]}; ∅ ] []).
  intros s s' prompt. reflexivity.
Defined.

(** ** The contact cells *)

Lemma app_comma_inj (x y r1 r2 : text) :
  ","%char ∉ x -> ","%char ∉ y ->
  x ++ ","%char :: r1 = y ++ ","%char :: r2 -> x = y /\ r1 = r2.
Proof.
  revert y. induction x as [|c x IH]; intros [|d y] Hx Hy H; simpl in H.
  - by injection H as <-.
  - injection H as <- _. exfalso. apply Hy, elem_of_cons. by left.
  - injection H as -> _. exfalso. apply Hx, elem_of_cons. by left.
  - injection H as <- H. apply IH in H as [-> ->]; [done| |].
    + intros ?. apply Hx, elem_of_cons. by right.
    + intros ?. apply Hy, elem_of_cons. by right.
Qed.

Lemma join_cons x y l :
  join (txt ", ") (x :: y :: l)
  = x ++ ","%char :: " "%char :: join (txt ", ") (y :: l).
Proof. done. Qed.

Lemma join_comma_inj l1 : forall l2,
  Forall (fun x : text => x <> [] /\ ","%char ∉ x) l1 ->
  Forall (fun x : text => x <> [] /\ ","%char ∉ x) l2 ->
  join (txt ", ") l1 = join (txt ", ") l2 -> l1 = l2.
Proof.
  induction l1 as [|x l1 IH]; intros l2 H1 H2 Hj.
  - destruct l2 as [|y [|y' l2]]; [done| |].
    + apply Forall_cons in H2 as [[Hy _] _]. simpl in Hj. by subst.
    + apply Forall_cons in H2 as [[Hy _] _]. rewrite join_cons in Hj.
      simpl in Hj. by destruct y.
  - apply Forall_cons in H1 as [[Hx Hxc] H1].
    destruct l2 as [|y l2].
    { destruct l1; simpl in Hj; [by subst|]. by destruct x. }
    apply Forall_cons in H2 as [[Hy Hyc] H2].
    destruct l1 as [|x' l1], l2 as [|y' l2].
    + simpl in Hj. by subst.
    + rewrite join_cons in Hj. simpl in Hj. exfalso. apply Hxc. rewrite Hj.
      apply elem_of_app. right. apply elem_of_cons. by left.
    + rewrite join_cons in Hj. simpl in Hj. exfalso. apply Hyc. rewrite <- Hj.
      apply elem_of_app. right. apply elem_of_cons. by left.
    + rewrite !join_cons in Hj. apply app_comma_inj in Hj as [-> Hj]; [|done..].
      injection Hj as Hj. f_equal. by apply IH.
Qed.

Lemma without_comma (P : ascii -> bool) (x : text) :
  P ","%char = false -> Forall (fun c => P c = true) x -> ","%char ∉ x.
Proof.
  intros Hp Hx Hin. rewrite Forall_forall in Hx. apply Hx in Hin. congruence.
Qed.

Lemma phone_entries_plain content :
  Forall (fun x : text => x <> [] /\ ","%char ∉ x)
    (list_set (findall no_flags phone_pattern content)).
Proof.
  apply Forall_forall. intros x Hx.
  apply elem_of_list_set, phone_match_facts in Hx as (_ & _ & _ & _ & _ & Hw).
  destruct phone_pattern_bounds as (_ & _ & Hlen & _ & Hchar).
  pose proof (Hw (fun _ => true)) as [L1 _].
  pose proof (Hw (fun c => negb (phone_char c))) as [_ C2].
  rewrite Hlen, count_of_true in L1. rewrite Hchar in C2.
  cbn [fst snd] in L1, C2. specialize (C2 _ eq_refl). split.
  - intros ->. simpl in L1. lia.
  - apply (without_comma phone_char); [done|]. apply count_of_negb_zero. lia.
Qed.

Lemma email_entries_plain content :
  Forall (fun x : text => x <> [] /\ ","%char ∉ x)
    (list_set (findall no_flags email_pattern content)).
Proof.
  apply Forall_forall. intros x Hx.
  apply elem_of_list_set, email_match_facts in Hx as (_ & _ & _ & _ & _ & Hw).
  destruct email_pattern_bounds as (_ & _ & Hlen & _ & _ & Hchar).
  pose proof (Hw (fun _ => true)) as [L1 _].
  pose proof (Hw (fun c => negb (email_char c))) as [_ C2].
  rewrite Hlen, count_of_true in L1. rewrite Hchar in C2.
  cbn [fst snd] in L1, C2. specialize (C2 _ eq_refl). split.
  - intros ->. simpl in L1. lia.
  - apply (without_comma email_char); [done|]. apply count_of_negb_zero. lia.
Qed.

(** X13: the [", "]-joined text that [_parse_detailed_response] stores for
    the phones, and the one for the emails, determines the list it was
    joined from: no phone and no email holds a comma or is empty, so two
    contents whose joined phones (or emails) are the same text have the same
    list of phones (or emails). *)
Theorem contact_cell_determines_list (key : string) (content1 content2 : text) :
  join (txt ", ") <$> extract_contact_info content1 !! key
  = join (txt ", ") <$> extract_contact_info content2 !! key ->
  extract_contact_info content1 !! key = extract_contact_info content2 !! key.
Proof.
  unfold extract_contact_info. rewrite !lookup_insert.
  destruct (decide ("emails"%string = key)) as [_|_].
  { intros [= H]. f_equal.
    apply join_comma_inj; [apply email_entries_plain..|done]. }
  destruct (decide ("phones"%string = key)) as [_|_]; [|done].
  intros [= H]. f_equal.
  apply join_comma_inj; [apply phone_entries_plain..|done].
Qed.

Lemma contact_cell_determines_list_witness :
  extract_contact_info (txt "Call 555-123-4567 today") !! "phones"
  = extract_contact_info (txt "tel: 555-123-4567.") !! "phones".
Proof.
  apply (contact_cell_determines_list "phones"
           (txt "Call 555-123-4567 today") (txt "tel: 555-123-4567.")).
  vm_compute. reflexivity.
Defined.
